(** * Snake: the game-state core of [snake.py]

    A shallow embedding of the state update of the pygame snake game
    (food placement, reset, key handling, one frame of the game update)
    and the properties of it that the specification states.

    Python integers are unbounded, so coordinates and the score are [Z].
    The snake is a Python list, head first, modelled as [list Vec]; the
    argument of [random_free_cell] is a Python set, modelled as [gset Vec].
    The module constants [GRID_W] and [GRID_H] are taken as parameters
    [W] and [H] of every definition; the program itself runs them at
    [GRID_W = 32] and [GRID_H = 24].

    Of [main], the model keeps what changes the five game variables: the
    handling of a direction key and the [if not game_over:] block. Drawing,
    the clock and quitting are left out. Several direction keys within one
    frame leave the last one that does not reverse the current direction
    pending, which is one tick with that key; [R] after a game over is
    [reset_game] again. *)

From stdpp Require Import base decidable countable numbers list gmap sets.
From Stdlib Require Import ZArith Lia.

Local Open Scope Z_scope.

(** ** Vectors and directions *)

Record Vec := mkVec { vx : Z; vy : Z }.

#[global] Instance Vec_eq_dec : EqDecision Vec.
Proof. solve_decision. Defined.

#[global] Instance Vec_countable : Countable Vec.
Proof.
  refine (inj_countable' (fun p => (vx p, vy p)) (fun q => mkVec q.1 q.2) _).
  by intros [??].
Defined.

(** [Vec.__add__] *)
Definition vadd (a b : Vec) : Vec := mkVec (vx a + vx b) (vy a + vy b).

Infix "+v" := vadd (at level 50, left associativity).

Definition DIR_UP : Vec := mkVec 0 (-1).
Definition DIR_DOWN : Vec := mkVec 0 1.
Definition DIR_LEFT : Vec := mkVec (-1) 0.
Definition DIR_RIGHT : Vec := mkVec 1 0.

(** The keys of the [key_to_dir] table of [main]. *)
Inductive Key := K_UP | K_w | K_DOWN | K_s | K_LEFT | K_a | K_RIGHT | K_d.

Definition key_to_dir (k : Key) : Vec :=
  match k with
  | K_UP | K_w => DIR_UP
  | K_DOWN | K_s => DIR_DOWN
  | K_LEFT | K_a => DIR_LEFT
  | K_RIGHT | K_d => DIR_RIGHT
  end.

(** [is_opposite] *)
Definition is_opposite (a b : Vec) : bool :=
  (vx a =? - vx b) && (vy a =? - vy b).

(** ** Exceptions and the random tape

    A computation either returns, raises one of the Python exceptions the
    core can raise, or is [Starved]: the model ran out of random numbers
    before the rejection loop of [random_free_cell] found a free cell.
    [Starved] is not a behaviour of the program, it only says that the
    tape handed to the model was too short to tell. *)

Inductive exn := RuntimeError | ValueError | IndexError.

Inductive result (A : Type) :=
  | Ok (a : A)
  | Raise (e : exn)
  | Starved.
Arguments Ok {A} a.
Arguments Raise {A} e.
Arguments Starved {A}.

(** The random generator is the list of raw numbers it is going to hand
    out; a computation threads that tape. *)
Definition tape := list Z.
Definition M (A : Type) : Type := tape → result (A * tape).

Definition ret {A} (a : A) : M A := fun t => Ok (a, t).
Definition raise {A} (e : exn) : M A := fun _ => Raise e.
Definition bind {A B} (m : M A) (k : A → M B) : M B :=
  fun t => match m t with
           | Ok (a, t') => k a t'
           | Raise e => Raise e
           | Starved => Starved
           end.

Notation "'let*' x ':=' m 'in' k" := (bind m (fun x => k))
  (at level 10, x name, k at level 200).

(** [try: m except RuntimeError: h] *)
Definition try_except_RuntimeError {A} (m : M A) (h : M A) : M A :=
  fun t => match m t with
           | Raise RuntimeError => h t
           | r => r
           end.

(** [random.randrange(n)]: [ValueError] on an empty range, otherwise the
    next raw number of the tape reduced into [0, n). *)
Definition randrange (n : Z) : M Z :=
  fun t => if decide (n ≤ 0) then Raise ValueError
           else match t with
                | [] => Starved
                | r :: t' => Ok (r `mod` n, t')
                end.

(** ** The game state

    The five variables [snake, direction, food, score, game_over] that
    [main] threads through its loop. *)
Record GameState := mkState {
  snake : list Vec;
  direction : Vec;
  food : Vec;
  score : Z;
  game_over : bool
}.

#[global] Instance GameState_eq_dec : EqDecision GameState.
Proof. solve_decision. Defined.

Section Grid.
(** [GRID_W] and [GRID_H] *)
Variables W H : Z.

(** [out_of_bounds] *)
Definition out_of_bounds (p : Vec) : bool :=
  (vx p <? 0) || (vx p >=? W) || (vy p <? 0) || (vy p >=? H).

(** The [while True] loop of [random_free_cell]; each round draws two
    numbers, so a tape of length [n] allows at most [n] rounds. *)
Fixpoint sample_loop (fuel : nat) (occupied : gset Vec) : M Vec :=
  match fuel with
  | O => fun _ => Starved
  | S fuel' =>
      let* x := randrange W in
      let* y := randrange H in
      let p := mkVec x y in
      if decide (p ∉ occupied) then ret p else sample_loop fuel' occupied
  end.

(** [random_free_cell] *)
Definition random_free_cell (occupied : gset Vec) : M Vec :=
  fun t =>
    if decide (W * H ≤ Z.of_nat (size occupied)) then Raise RuntimeError
    else sample_loop (S (length t)) occupied t.

(** [reset_game] *)
Definition reset_game : M GameState :=
  let start := mkVec (W `div` 2) (H `div` 2) in
  let snake := [start; start +v DIR_LEFT; start +v DIR_LEFT +v DIR_LEFT] in
  let direction := DIR_RIGHT in
  let score := 0 in
  let* food := random_free_cell (list_to_set snake) in
  ret (mkState snake direction food score false).

(** [move_snake]: the list is mutated in place, so the model returns the
    new list along with the new head; [snake[0]] raises on an empty
    list. *)
Definition move_snake (snake : list Vec) (direction : Vec)
  : M (Vec * list Vec) :=
  match snake with
  | [] => raise IndexError
  | h :: _ => let new_head := h +v direction in ret (new_head, new_head :: snake)
  end.

(** The handling of one direction key in the event loop: the key sets
    [pending_dir] unless the game is over or the key reverses the
    current direction. *)
Definition handle_key (game_over : bool) (direction : Vec)
    (pending_dir : option Vec) (cand : Vec) : option Vec :=
  if negb game_over && negb (is_opposite cand direction)
  then Some cand else pending_dir.

(** The [if not game_over:] block of the main loop: apply the pending
    direction, move, detect collisions, eat or drop the tail. *)
Definition update (st : GameState) (pending_dir : option Vec) : M GameState :=
  if game_over st then ret st
  else
    let direction := match pending_dir with
                     | Some d => d
                     | None => direction st
                     end in
    let* moved := move_snake (snake st) direction in
    let '(new_head, snake) := moved in
    if out_of_bounds new_head then
      ret (mkState snake direction (food st) (score st) true)
    else if decide (new_head ∈ tail snake) then
      ret (mkState snake direction (food st) (score st) true)
    else if decide (new_head = food st) then
      let score := score st + 1 in
      try_except_RuntimeError
        (let* food := random_free_cell (list_to_set snake) in
         ret (mkState snake direction food score false))
        (ret (mkState snake direction (food st) score true))
    else
      ret (mkState (removelast snake) direction (food st) (score st) false).

(** One tick of the driver: at most one direction key, then the update.
    This is [step(intent)] of the specification. *)
Definition step (st : GameState) (intent : option Vec) : M GameState :=
  update st
    (match intent with
     | Some cand => handle_key (game_over st) (direction st) None cand
     | None => None
     end).

(** Repeated ticks, one intent each. *)
Fixpoint steps (st : GameState) (intents : list (option Vec)) : M GameState :=
  match intents with
  | [] => ret st
  | i :: rest => let* st' := step st i in steps st' rest
  end.

(** States the program can be in at the end of a tick: the result of
    [reset_game], then any number of ticks with a key of the table or
    none. *)
Inductive reachable : GameState → Prop :=
  | reach_reset t st t' :
      reset_game t = Ok (st, t') → reachable st
  | reach_step st (k : option Key) t st' t' :
      reachable st →
      step st (key_to_dir <$> k) t = Ok (st', t') →
      reachable st'.

(** The head the snake is about to get, and whether the tick about to
    happen is a food-eating one: the game is running and that head is
    the food cell. *)
Definition heading (st : GameState) (intent : option Vec) : Vec :=
  match intent with
  | Some cand => if is_opposite cand (direction st) then direction st else cand
  | None => direction st
  end.

Definition new_head (st : GameState) (intent : option Vec) : option Vec :=
  match snake st with
  | [] => None
  | h :: _ => Some (h +v heading st intent)
  end.

Definition eats (st : GameState) (intent : option Vec) : bool :=
  negb (game_over st) && bool_decide (new_head st intent = Some (food st)).

(** A run since the last reset, with the number of food-eating ticks
    in it. *)
Inductive run : GameState → Z → Prop :=
  | run_reset t st t' :
      reset_game t = Ok (st, t') → run st 0
  | run_step st n (k : option Key) t st' t' :
      run st n →
      step st (key_to_dir <$> k) t = Ok (st', t') →
      run st' (n + (if eats st (key_to_dir <$> k) then 1 else 0)).

(** A position of the grid, as a proposition. *)
Definition in_grid (p : Vec) : Prop :=
  0 ≤ vx p < W ∧ 0 ≤ vy p < H.

(** The cells of the grid in a list, by index. *)
Definition cell_of_index (i : Z) : Vec := mkVec (i `div` H) (i `mod` H).

Definition grid_cells : list Vec := cell_of_index <$> seqZ 0 (W * H).

(** The set built from the snake is full: as many distinct segments as
    the grid has cells. *)
Definition grid_full (st : GameState) : Prop :=
  W * H ≤ Z.of_nat (size (list_to_set (snake st) : gset Vec)).

Record invariant (st : GameState) : Prop := {
  inv_nonempty : snake st ≠ [];
  inv_food_in_grid : in_grid (food st);
  inv_NoDup : game_over st = false → NoDup (snake st);
  inv_food_free :
    food st ∉ snake st
    ∨ (game_over st = true ∧ head (snake st) = Some (food st) ∧ grid_full st)
}.

End Grid.

Definition GRID_W : Z := 32.
Definition GRID_H : Z := 24.

#[global] Instance in_grid_dec W H p : Decision (in_grid W H p).
Proof. unfold in_grid. apply _. Defined.

(** The four ways a running tick can end: a collision, a plain move, a
    move that eats and gets new food, a move that eats the last free cell. *)
Definition crashed (st : GameState) (d nh : Vec) : GameState :=
  mkState (nh :: snake st) d (food st) (score st) true.
Definition moved (st : GameState) (d nh : Vec) : GameState :=
  mkState (nh :: removelast (snake st)) d (food st) (score st) false.
Definition grown (st : GameState) (d nh f : Vec) : GameState :=
  mkState (nh :: snake st) d f (score st + 1) false.
Definition won (st : GameState) (d nh : Vec) : GameState :=
  mkState (nh :: snake st) d (food st) (score st + 1) true.

(** The opposite of a direction. *)
Definition neg (d : Vec) : Vec := mkVec (- vx d) (- vy d).

(** The cells visited from [p] by following [keys]. *)
Fixpoint walk (p : Vec) (keys : list Key) : list Vec :=
  match keys with
  | [] => []
  | k :: keys' => let q := p +v key_to_dir k in q :: walk q keys'
  end.

(** ** States of the program used below *)

(** Right after a reset that drew the food at (17,12); after eating it;
    one tick later. *)
Definition fresh : GameState :=
  mkState [mkVec 16 12; mkVec 15 12; mkVec 14 12] DIR_RIGHT (mkVec 17 12) 0 false.
Definition fed : GameState :=
  mkState [mkVec 17 12; mkVec 16 12; mkVec 15 12; mkVec 14 12]
          DIR_RIGHT (mkVec 0 0) 1 false.
Definition fed_moved : GameState :=
  mkState [mkVec 18 12; mkVec 17 12; mkVec 16 12; mkVec 15 12]
          DIR_RIGHT (mkVec 0 0) 1 false.

(** Right after a reset that drew the food at (0,0). *)
Definition started : GameState :=
  mkState [mkVec 16 12; mkVec 15 12; mkVec 14 12] DIR_RIGHT (mkVec 0 0) 0 false.

(** On the program's 32 x 24 grid: reset, food drawn at (0,0), fifteen
    ticks without a key bring the head to the right wall. *)
Definition at_right_wall : GameState :=
  mkState [mkVec 31 12; mkVec 30 12; mkVec 29 12] DIR_RIGHT (mkVec 0 0) 0 false.

(** On the program's grid: the snake has eaten once and turned up and
    left, so that the cell below its head is its own tail. *)
Definition coiled : GameState :=
  mkState [mkVec 16 11; mkVec 17 11; mkVec 17 12; mkVec 16 12]
          DIR_LEFT (mkVec 0 0) 1 false.

(** A 4 x 1 grid: after reset the only free cell is (3,0), the food is
    there, and the first tick eats it and fills the grid. *)
Definition filled_4x1 : GameState :=
  mkState [mkVec 3 0; mkVec 2 0; mkVec 1 0; mkVec 0 0] DIR_RIGHT (mkVec 3 0) 1 true.

(** On the program's grid: after the reset of [fresh], fifteen cells to
    the right wall, the upper half column by column, the rest of row 12,
    then the lower half, 765 cells in all, each holding the food when
    the head gets there. *)
Definition winning_keys : list Key :=
  replicate 15 K_RIGHT ++ replicate 12 K_UP
  ++ mjoin (replicate 15 ([K_LEFT] ++ replicate 11 K_DOWN
                          ++ [K_LEFT] ++ replicate 11 K_UP))
  ++ [K_LEFT] ++ replicate 11 K_DOWN
  ++ [K_DOWN] ++ replicate 13 K_RIGHT
  ++ [K_DOWN] ++ replicate 13 K_LEFT
  ++ mjoin (replicate 4 ([K_DOWN] ++ replicate 13 K_RIGHT
                         ++ [K_DOWN] ++ replicate 13 K_LEFT))
  ++ [K_DOWN; K_DOWN]
  ++ mjoin (replicate 6 [K_RIGHT; K_UP; K_RIGHT; K_DOWN])
  ++ [K_RIGHT; K_UP; K_RIGHT; K_DOWN] ++ replicate 17 K_RIGHT
  ++ replicate 10 K_UP
  ++ mjoin (replicate 8 ([K_LEFT] ++ replicate 9 K_DOWN
                         ++ [K_LEFT] ++ replicate 9 K_UP))
  ++ [K_LEFT] ++ replicate 8 K_DOWN.

Definition filled : GameState :=
  mkState (reverse (walk (mkVec 16 12) winning_keys) ++ snake fresh)
          DIR_DOWN (mkVec 14 21) 765 true.

(** [W * H] distinct positions to the left of the grid. *)
Definition outside_cells (W H : Z) : list Vec :=
  (λ i, mkVec (-1 - i) 0) <$> seqZ 0 (W * H).

(** ** The event loop of [main]

    One pass of [while True]: the events of the frame are handled in
    order, then the game is updated. [pending_dir] is a variable of the
    loop beside the five game variables. A [return] inside the loop ends
    [main] with its exit code. *)

(** [event.key]: the keys of the [key_to_dir] table, the three keys
    [main] tests by name, and any other key. *)
Inductive KeyCode := Dir (k : Key) | K_ESCAPE | K_q | K_r | OtherKey (code : Z).

(** [event.type] with its payload; only [QUIT] and [KEYDOWN] are looked
    at. *)
Inductive Event := QUIT | KEYDOWN (key : KeyCode) | OtherEvent.

(** Either [main] has returned, or the loop goes on. *)
Inductive flow (A : Type) :=
  | Return (code : Z)
  | Next (a : A).
Arguments Return {A} code.
Arguments Next {A} a.

Record Loop := mkLoop {
  game : GameState;
  pending_dir : option Vec
}.

(** The events that end [main]. *)
Definition is_quit (ev : Event) : bool :=
  match ev with
  | QUIT | KEYDOWN K_ESCAPE | KEYDOWN K_q => true
  | _ => false
  end.

Definition is_restart (ev : Event) : bool :=
  match ev with
  | KEYDOWN K_r => true
  | _ => false
  end.

(** The direction key that is pending after the events of a frame of a
    running game: the last one that does not reverse [direction]. *)
Fixpoint last_turn (direction : Vec) (events : list Event) (pending : option Key)
  : option Key :=
  match events with
  | [] => pending
  | KEYDOWN (Dir k) :: rest =>
      last_turn direction rest
        (if is_opposite (key_to_dir k) direction then pending else Some k)
  | _ :: rest => last_turn direction rest pending
  end.

Section Driver.
Variables W H : Z.

(** The body of [for event in pygame.event.get()]. *)
Definition handle_event (l : Loop) (ev : Event) : M (flow Loop) :=
  match ev with
  | QUIT => ret (Return 0)
  | KEYDOWN key =>
      match key with
      | K_ESCAPE | K_q => ret (Return 0)
      | K_r =>
          if game_over (game l) then
            let* st := reset_game W H in ret (Next (mkLoop st None))
          else ret (Next l)
      | Dir k =>
          ret (Next (mkLoop (game l)
                       (handle_key (game_over (game l)) (direction (game l))
                                   (pending_dir l) (key_to_dir k))))
      | OtherKey _ => ret (Next l)
      end
  | OtherEvent => ret (Next l)
  end.

(** The [for] loop over the events of one frame. *)
Fixpoint poll (l : Loop) (events : list Event) : M (flow Loop) :=
  match events with
  | [] => ret (Next l)
  | ev :: rest =>
      let* r := handle_event l ev in
      match r with
      | Return code => ret (Return code)
      | Next l' => poll l' rest
      end
  end.

(** One pass of the [while True] loop, without the drawing: events, then
    the update, which uses up [pending_dir] when the game runs. *)
Definition frame (l : Loop) (events : list Event) : M (flow Loop) :=
  let* r := poll l events in
  match r with
  | Return code => ret (Return code)
  | Next l' =>
      let* st' := update W H (game l') (pending_dir l') in
      ret (Next (mkLoop st' (if game_over (game l') then pending_dir l' else None)))
  end.

Fixpoint run_frames (l : Loop) (frames : list (list Event)) : M (flow Loop) :=
  match frames with
  | [] => ret (Next l)
  | events :: rest =>
      let* r := frame l events in
      match r with
      | Return code => ret (Return code)
      | Next l' => run_frames l' rest
      end
  end.

(** [main] over the frames given: [Return] when an event ended it,
    [Next] with the loop variables when it is still looping. *)
Definition main (frames : list (list Event)) : M (flow Loop) :=
  let* st := reset_game W H in
  run_frames (mkLoop st None) frames.

End Driver.

(** ** Shape of the body *)

Definition unit_dir (d : Vec) : Prop :=
  d = DIR_UP ∨ d = DIR_DOWN ∨ d = DIR_LEFT ∨ d = DIR_RIGHT.

(** Two cells next to each other, and a list of cells each next to the
    following one. *)
Definition adjacent (a b : Vec) : Prop :=
  Z.abs (vx a - vx b) + Z.abs (vy a - vy b) = 1.

Fixpoint contiguous (l : list Vec) : Prop :=
  match l with
  | a :: l' => match l' with
               | b :: _ => adjacent a b ∧ contiguous l'
               | [] => True
               end
  | [] => True
  end.

Record shape (st : GameState) : Prop := {
  shape_dir : unit_dir (direction st);
  shape_contiguous : contiguous (snake st);
  shape_neck : ∀ h n rest, snake st = h :: n :: rest → h = n +v direction st;
  shape_length :
    Z.of_nat (length (snake st)) = score st + 3
    ∨ (game_over st = true ∧ Z.of_nat (length (snake st)) = score st + 4);
  shape_score : 0 ≤ score st
}.

(** Where the body is, and how large the score can be: the body of a
    running game is on the grid, after game over all of it but perhaps
    the head. *)
Definition housed (W H : Z) (st : GameState) : Prop :=
  (game_over st = false → Forall (in_grid W H) (snake st))
  ∧ Forall (in_grid W H) (tail (snake st))
  ∧ score st + 3 ≤ W * H.

(** The numbers the generator hands out when it draws the cells of a
    list one after the other. *)
Definition draws (cells : list Vec) : tape :=
  cells ≫= (λ p, [vx p; vy p]).

(** ** Drawing *)

Definition CELL_SIZE : Z := 20.
Definition WIDTH (W : Z) : Z := W * CELL_SIZE.
Definition HEIGHT (H : Z) : Z := H * CELL_SIZE.

Definition Color : Type := Z * Z * Z.
Definition COLOR_SNAKE : Color := (90, 220, 140).
Definition COLOR_HEAD : Color := (60, 255, 120).
Definition COLOR_FOOD : Color := (250, 90, 90).

(** [pygame.Rect(left, top, width, height)] *)
Record Rect := mkRect { rleft : Z; rtop : Z; rwidth : Z; rheight : Z }.

(** The rectangle [draw_cell] fills for the grid position [pos]. *)
Definition cell_rect (pos : Vec) : Rect :=
  mkRect (vx pos * CELL_SIZE) (vy pos * CELL_SIZE) CELL_SIZE CELL_SIZE.

(** The pixels of a rectangle, and the pixels of the window. *)
Definition covers (r : Rect) (px py : Z) : Prop :=
  rleft r ≤ px < rleft r + rwidth r ∧ rtop r ≤ py < rtop r + rheight r.

Definition on_screen (W H : Z) (px py : Z) : Prop :=
  0 ≤ px < WIDTH W ∧ 0 ≤ py < HEIGHT H.

(** [range(0, stop, step)] for a positive [step]. *)
Definition range0 (stop step : Z) : list Z :=
  (λ i, i * step) <$> seqZ 0 ((stop + step - 1) `div` step).

(** The lines of [draw_grid], each by its two end points: the vertical
    ones, then the horizontal ones. *)
Definition draw_grid (W H : Z) : list ((Z * Z) * (Z * Z)) :=
  ((λ x, ((x, 0), (x, HEIGHT H))) <$> range0 (WIDTH W) CELL_SIZE)
  ++ ((λ y, ((0, y), (WIDTH W, y))) <$> range0 (HEIGHT H) CELL_SIZE).

(** The [draw_cell] calls of one frame, in order: the food, then the
    segments of the snake with the head in its own colour. *)
Definition draw_cells (st : GameState) : list (Vec * Color) :=
  (food st, COLOR_FOOD)
  :: imap (λ i seg, (seg, if decide (i = 0%nat) then COLOR_HEAD else COLOR_SNAKE))
          (snake st).

(** * Properties *)

(** ** Food placement *)

Section GridFacts.
Variables W H : Z.

Lemma out_of_bounds_false p : out_of_bounds W H p = false ↔ in_grid W H p.
Proof. unfold out_of_bounds, in_grid. lia. Qed.

Lemma out_of_bounds_true p : out_of_bounds W H p = true ↔ ¬ in_grid W H p.
Proof. unfold out_of_bounds, in_grid. lia. Qed.

Lemma sample_loop_Ok fuel occupied t p t' :
  sample_loop W H fuel occupied t = Ok (p, t') →
  in_grid W H p ∧ p ∉ occupied.
Proof.
  revert t. induction fuel as [|fuel IH]; intros t; simpl; [done|].
  unfold bind, randrange.
  destruct (decide (W ≤ 0)); [done|].
  destruct t as [|a t]; [done|].
  destruct (decide (H ≤ 0)); [done|].
  destruct t as [|b t]; [done|].
  destruct (decide (mkVec (a `mod` W) (b `mod` H) ∉ occupied)) as [Hfree|_].
  - unfold ret. intros [= <- <-]. split; [|done].
    unfold in_grid; simpl.
    pose proof (Z.mod_pos_bound a W). pose proof (Z.mod_pos_bound b H). lia.
  - apply IH.
Qed.

(** The loop itself raises nothing but the [ValueError] of [randrange]. *)
Lemma sample_loop_Raise fuel occupied t e :
  sample_loop W H fuel occupied t = Raise e →
  e = ValueError ∧ (W ≤ 0 ∨ H ≤ 0).
Proof.
  revert t. induction fuel as [|fuel IH]; intros t; simpl; [done|].
  unfold bind, randrange.
  destruct (decide (W ≤ 0)); [intros [= <-]; auto|].
  destruct t as [|a t]; [done|].
  destruct (decide (H ≤ 0)); [intros [= <-]; auto|].
  destruct t as [|b t]; [done|].
  destruct (decide (mkVec (a `mod` W) (b `mod` H) ∉ occupied)); [done|].
  apply IH.
Qed.

(** A round that draws the coordinates of a free cell returns it. *)
Lemma sample_loop_hit fuel occupied p t :
  in_grid W H p → p ∉ occupied →
  sample_loop W H (S fuel) occupied (vx p :: vy p :: t) = Ok (p, t).
Proof.
  intros [Hx Hy] Hfree. simpl. unfold bind, randrange.
  destruct (decide (W ≤ 0)); [lia|].
  destruct (decide (H ≤ 0)); [lia|].
  rewrite !Z.mod_small by lia.
  destruct p as [x y]; simpl.
  destruct (decide (mkVec x y ∉ occupied)); done.
Qed.

(** Rounds that draw occupied cells are skipped. *)
Lemma sample_loop_skip fuel occupied q t :
  in_grid W H q → q ∈ occupied →
  sample_loop W H (S fuel) occupied (vx q :: vy q :: t)
  = sample_loop W H fuel occupied t.
Proof.
  intros [Hx Hy] Hocc. simpl. unfold bind, randrange.
  destruct (decide (W ≤ 0)); [lia|].
  destruct (decide (H ≤ 0)); [lia|].
  rewrite !Z.mod_small by lia.
  destruct q as [x y]; simpl.
  destruct (decide (mkVec x y ∉ occupied)); done.
Qed.

Lemma random_free_cell_RuntimeError occupied t :
  random_free_cell W H occupied t = Raise RuntimeError
  ↔ W * H ≤ Z.of_nat (size occupied).
Proof.
  unfold random_free_cell.
  destruct (decide (W * H ≤ Z.of_nat (size occupied))) as [Hfull|Hroom].
  - done.
  - split; [|done]. intros Hr.
    by apply sample_loop_Raise in Hr as [? _].
Qed.

Lemma random_free_cell_Ok occupied t p t' :
  random_free_cell W H occupied t = Ok (p, t') →
  in_grid W H p ∧ (p ∉ occupied) ∧ Z.of_nat (size occupied) < W * H.
Proof.
  unfold random_free_cell.
  destruct (decide (W * H ≤ Z.of_nat (size occupied))); [done|].
  intros Hs. apply sample_loop_Ok in Hs as [??]. split_and!; [done..|lia].
Qed.

Lemma random_free_cell_hit occupied p t :
  Z.of_nat (size occupied) < W * H →
  in_grid W H p → p ∉ occupied →
  random_free_cell W H occupied (vx p :: vy p :: t) = Ok (p, t).
Proof.
  intros Hroom Hp Hfree. unfold random_free_cell.
  destruct (decide (W * H ≤ Z.of_nat (size occupied))); [lia|].
  by apply sample_loop_hit.
Qed.

Lemma cell_of_index_in_grid i :
  0 < H → 0 ≤ i < W * H → in_grid W H (cell_of_index H i).
Proof.
  intros HH Hi. unfold in_grid, cell_of_index; simpl.
  pose proof (Z.mod_pos_bound i H HH).
  split; [|lia]. split.
  - apply Z.div_pos; lia.
  - apply Z.div_lt_upper_bound; lia.
Qed.

Lemma cell_of_index_inj i j :
  0 < H → cell_of_index H i = cell_of_index H j → i = j.
Proof.
  intros HH [= Hd Hm].
  rewrite (Z.div_mod i H), (Z.div_mod j H) by lia. congruence.
Qed.

Lemma grid_cells_NoDup : 0 < H → NoDup (grid_cells W H).
Proof.
  intros HH. apply NoDup_fmap_2_strong; [|apply NoDup_seqZ].
  intros i j _ _. by apply cell_of_index_inj.
Qed.

Lemma grid_cells_length : 0 ≤ W * H → Z.of_nat (length (grid_cells W H)) = W * H.
Proof. intros. unfold grid_cells. rewrite length_fmap, length_seqZ. lia. Qed.

Lemma grid_cells_in_grid p : 0 < H → p ∈ (grid_cells W H) → in_grid W H p.
Proof.
  intros HH (i & -> & Hi)%list_elem_of_fmap.
  apply elem_of_seqZ in Hi. apply cell_of_index_in_grid; lia.
Qed.

(** Fewer occupied positions than cells leave a cell of the grid free. *)
Lemma free_cell_exists (occupied : gset Vec) :
  Z.of_nat (size occupied) < W * H → 0 < H →
  ∃ p, in_grid W H p ∧ p ∉ occupied.
Proof.
  intros Hroom HH.
  destruct (set_choose_or_empty (list_to_set (grid_cells W H) ∖ occupied))
    as [[p Hp]|Hempty].
  - exists p. apply elem_of_difference in Hp as [Hp Hfree].
    apply elem_of_list_to_set in Hp. split; [|done].
    by apply grid_cells_in_grid.
  - exfalso.
    assert (list_to_set (grid_cells W H) ⊆ occupied) as Hsub.
    { intros p Hp. destruct (decide (p ∈ occupied)) as [|Hfree]; [done|].
      destruct (not_elem_of_empty (C:=gset Vec) p).
      rewrite <- (leibniz_equiv _ _ Hempty). by apply elem_of_difference. }
    apply subseteq_size in Hsub.
    rewrite size_list_to_set in Hsub by by apply grid_cells_NoDup.
    pose proof (grid_cells_length ltac:(lia)). lia.
Qed.

(** With room left on a grid of positive sides, some tape makes
    [random_free_cell] return, and it can return any free cell. *)
Lemma random_free_cell_returns occupied :
  Z.of_nat (size occupied) < W * H → 0 < H →
  ∃ p t t', random_free_cell W H occupied t = Ok (p, t').
Proof.
  intros Hroom HH. destruct (free_cell_exists occupied) as (p & Hp & Hfree);
    [done..|].
  exists p, [vx p; vy p], []. by apply random_free_cell_hit.
Qed.

End GridFacts.

(** ** One tick, case by case *)

Section StepFacts.
Variables W H : Z.

Lemma step_game_over st intent t :
  game_over st = true → step W H st intent t = Ok (st, t).
Proof. intros Hover. unfold step, update. by rewrite Hover. Qed.

Lemma steps_game_over st intents t :
  game_over st = true → steps W H st intents t = Ok (st, t).
Proof.
  intros Hover. induction intents as [|i rest IH]; simpl; [done|].
  unfold bind. by rewrite step_game_over.
Qed.

Lemma step_cases st intent t h body :
  game_over st = false → snake st = h :: body →
  let d := heading st intent in
  let nh := h +v d in
  step W H st intent t =
    if out_of_bounds W H nh then Ok (crashed st d nh, t)
    else if decide (nh ∈ snake st) then Ok (crashed st d nh, t)
    else if decide (nh = food st) then
      match random_free_cell W H (list_to_set (nh :: snake st)) t with
      | Ok (f, t') => Ok (grown st d nh f, t')
      | Raise RuntimeError => Ok (won st d nh, t)
      | Raise e => Raise e
      | Starved => Starved
      end
    else Ok (moved st d nh, t).
Proof.
  intros Hrun Hsnake d nh.
  unfold step, update, crashed, moved, grown, won. rewrite Hrun, Hsnake.
  assert ((match
             match intent with
             | Some cand => handle_key false (direction st) None cand
             | None => None
             end
           with
           | Some d0 => d0
           | None => direction st
           end) = d) as ->.
  { subst d. unfold heading, handle_key. destruct intent as [cand|]; [|done].
    simpl. by destruct (is_opposite cand (direction st)). }
  unfold move_snake, bind, ret. fold nh. cbn [tail removelast].
  destruct (out_of_bounds W H nh); [done|].
  destruct (decide (nh ∈ h :: body)); [done|].
  destruct (decide (nh = food st)); [|done].
  unfold try_except_RuntimeError.
  destruct (random_free_cell W H _ t) as [[f t']|[]|]; done.
Qed.

(** What a tick that returns can have returned. *)
Lemma step_Ok_inv st intent t st' t' h body :
  game_over st = false → snake st = h :: body →
  step W H st intent t = Ok (st', t') →
  let d := heading st intent in
  let nh := h +v d in
  (st' = crashed st d nh ∧ t' = t ∧ (¬ in_grid W H nh ∨ nh ∈ snake st))
  ∨ (st' = moved st d nh ∧ t' = t
     ∧ in_grid W H nh ∧ (nh ∉ snake st) ∧ nh ≠ food st)
  ∨ (∃ f, st' = grown st d nh f ∧ in_grid W H nh ∧ (nh ∉ snake st)
          ∧ nh = food st ∧ in_grid W H f ∧ f ∉ nh :: snake st)
  ∨ (st' = won st d nh ∧ t' = t ∧ in_grid W H nh ∧ (nh ∉ snake st)
     ∧ nh = food st
     ∧ W * H ≤ Z.of_nat (size (list_to_set (nh :: snake st) : gset Vec))).
Proof.
  intros Hrun Hsnake Hstep d nh.
  rewrite (step_cases st intent t h body Hrun Hsnake) in Hstep.
  fold d nh in Hstep.
  destruct (out_of_bounds W H nh) eqn:Hoob.
  { injection Hstep as <- <-. left. split_and!; [done..|].
    left. by apply out_of_bounds_true. }
  apply out_of_bounds_false in Hoob.
  destruct (decide (nh ∈ snake st)) as [Hself|Hself].
  { injection Hstep as <- <-. left. auto. }
  destruct (decide (nh = food st)) as [Heat|Heat].
  2: { injection Hstep as <- <-. right; left. auto. }
  destruct (random_free_cell W H _ t) as [[f t'']|e|] eqn:Hfood; [| |done].
  - injection Hstep as <- <-. right; right; left. exists f.
    apply random_free_cell_Ok in Hfood as (Hf & Hfree & _).
    rewrite elem_of_list_to_set in Hfree. auto 10.
  - destruct e; try done. injection Hstep as <- <-. right; right; right.
    apply random_free_cell_RuntimeError in Hfood. auto 10.
Qed.

(** A running tick raises nothing. *)
Lemma step_no_Raise st intent t e h body :
  game_over st = false → snake st = h :: body →
  step W H st intent t ≠ Raise e.
Proof.
  intros Hrun Hsnake.
  rewrite (step_cases st intent t h body Hrun Hsnake).
  destruct (out_of_bounds W H _) eqn:Hoob; [done|].
  apply out_of_bounds_false in Hoob.
  repeat case_decide; try done.
  unfold random_free_cell. case_decide; [done|].
  destruct (sample_loop W H _ _ t) as [[f t']|e'|] eqn:Hloop; [done| |done].
  apply sample_loop_Raise in Hloop as [-> Hneg].
  unfold in_grid in Hoob. lia.
Qed.

End StepFacts.

(** ** What holds of every reachable state *)

Lemma removelast_sublist {A} (l : list A) : removelast l `sublist_of` l.
Proof. rewrite removelast_firstn_len. apply sublist_take. Qed.

Section Invariant.
Variables W H : Z.

Lemma reset_game_Ok t st t' :
  reset_game W H t = Ok (st, t') →
  let start := mkVec (W `div` 2) (H `div` 2) in
  ∃ f, st = mkState [start; start +v DIR_LEFT; start +v DIR_LEFT +v DIR_LEFT]
                    DIR_RIGHT f 0 false
       ∧ in_grid W H f
       ∧ f ∉ [start; start +v DIR_LEFT; start +v DIR_LEFT +v DIR_LEFT].
Proof.
  intros Hreset start. unfold reset_game, bind, ret in Hreset.
  destruct (random_free_cell W H _ t) as [[f t'']|e|] eqn:Hfood; [|done..].
  injection Hreset as <- <-. exists f.
  apply random_free_cell_Ok in Hfood as (Hf & Hfree & _).
  rewrite elem_of_list_to_set in Hfree. done.
Qed.

Lemma initial_snake_NoDup (start : Vec) :
  NoDup [start; start +v DIR_LEFT; start +v DIR_LEFT +v DIR_LEFT].
Proof.
  destruct start as [x y]. unfold vadd, DIR_LEFT; simpl.
  repeat (apply NoDup_cons; split); try apply NoDup_nil_2;
    rewrite ?elem_of_cons, ?elem_of_nil; intros Hin;
    repeat destruct Hin as [Hin|Hin]; try done;
    injection Hin; lia.
Qed.

Lemma reset_invariant t st t' :
  reset_game W H t = Ok (st, t') → invariant W H st.
Proof.
  intros (f & -> & Hf & Hfree)%reset_game_Ok.
  split; simpl; [done|done| |by left].
  intros _. apply initial_snake_NoDup.
Qed.

Lemma step_invariant st intent t st' t' :
  invariant W H st → step W H st intent t = Ok (st', t') → invariant W H st'.
Proof.
  intros Hinv Hstep.
  destruct (game_over st) eqn:Hover.
  { rewrite step_game_over in Hstep by done. by injection Hstep as <- _. }
  destruct Hinv as [Hne Hfood Hnodup Hfree].
  destruct (snake st) as [|h body] eqn:Hsnake; [done|].
  specialize (Hnodup Hover).
  destruct Hfree as [Hfree|[? _]]; [|congruence].
  apply (step_Ok_inv W H st intent t st' t' h body Hover Hsnake) in Hstep.
  rewrite Hsnake in Hstep.
  destruct Hstep as [(-> & _ & Hcoll)|[(-> & _ & Hnh & Hself & Hnf)
    |[(f & -> & Hnh & Hself & Heat & Hf & Hffree)
     |(-> & _ & Hnh & Hself & Heat & Hfull)]]];
    split; simpl; rewrite ?Hsnake; try done.
  - left. rewrite elem_of_cons. intros [Heq|Hin]; [|done].
    destruct Hcoll as [Hout|Hin]; [|by rewrite <- Heq in Hin].
    by rewrite <- Heq in Hout.
  - intros _. apply NoDup_cons. split.
    + intros Hin. apply Hself. eapply elem_of_sublist; [done|].
      apply removelast_sublist.
    + eapply sublist_NoDup; [done|]. apply removelast_sublist.
  - left. rewrite elem_of_cons. intros [Heq|Hin]; [done|].
    apply Hfree. eapply elem_of_sublist; [done|]. apply removelast_sublist.
  - intros _. by apply NoDup_cons.
  - by left.
  - right. split_and!; [done|by rewrite Heat|].
    unfold grid_full; simpl. by rewrite Hsnake.
Qed.

Lemma reachable_invariant st : reachable W H st → invariant W H st.
Proof.
  induction 1 as [t st t' Hreset|st k t st' t' _ IH Hstep].
  - by eapply reset_invariant.
  - by eapply step_invariant.
Qed.

(** Ticks in a row stay within the reachable states. *)
Lemma steps_reachable st (keys : list (option Key)) t st' t' :
  reachable W H st →
  steps W H st (fmap (M:=option) key_to_dir <$> keys) t = Ok (st', t') →
  reachable W H st'.
Proof.
  revert st t. induction keys as [|k keys IH]; intros st t Hst; simpl.
  - by intros [= <- _].
  - unfold bind.
    destruct (step W H st (key_to_dir <$> k) t) as [[st1 t1]|e|] eqn:Hstep;
      [|done..].
    apply IH. by eapply reach_step.
Qed.

Lemma run_reachable st n : run W H st n → reachable W H st.
Proof.
  induction 1; [by eapply reach_reset|by eapply reach_step].
Qed.

End Invariant.

(** * The claims of the specification *)

(** ** Wall collision *)

Lemma at_right_wall_reachable : reachable GRID_W GRID_H at_right_wall.
Proof.
  apply (steps_reachable _ _ started (replicate 15%nat None) [] _ []).
  - by apply (reach_reset _ _ [0; 0] _ []).
  - by vm_compute.
Qed.

(** C1, as the specification states it, fails: after the wall collision
    the body is not the body from before the move, the new head has been
    put in front of it. *)
Lemma wall_collision_body_changed :
  reachable GRID_W GRID_H at_right_wall
  ∧ new_head at_right_wall None = Some (mkVec 32 12)
  ∧ out_of_bounds GRID_W GRID_H (mkVec 32 12) = true
  ∧ ∃ st', step GRID_W GRID_H at_right_wall None [] = Ok (st', [])
           ∧ game_over st' = true
           ∧ snake st' = mkVec 32 12 :: snake at_right_wall
           ∧ snake st' ≠ snake at_right_wall.
Proof.
  split; [apply at_right_wall_reachable|].
  split; [done|]. split; [done|].
  eexists. split; [by vm_compute|]. done.
Qed.

(** C1, amended: on a wall collision in a running game the tick sets
    [game_over], leaves food and score alone, keeps the heading the move
    was made with, and the body is the old body with the new head, the
    one outside the grid, in front of it. No random number is drawn. *)
Theorem wall_collision (W H : Z) st intent t h body :
  game_over st = false → snake st = h :: body →
  out_of_bounds W H (h +v heading st intent) = true →
  step W H st intent t =
    Ok (mkState ((h +v heading st intent) :: snake st) (heading st intent)
                (food st) (score st) true, t).
Proof.
  intros Hrun Hsnake Hout.
  rewrite (step_cases W H st intent t h body Hrun Hsnake). by rewrite Hout.
Qed.

(** The example of the specification: a 5 x 5 grid, head at (4,2),
    heading right, no key. *)
Lemma wall_collision_witness :
  step 5 5 (mkState [mkVec 4 2; mkVec 3 2; mkVec 2 2] DIR_RIGHT (mkVec 0 0) 0 false)
       None []
  = Ok (mkState [mkVec 5 2; mkVec 4 2; mkVec 3 2; mkVec 2 2] DIR_RIGHT
                (mkVec 0 0) 0 true, []).
Proof.
  apply (wall_collision 5 5
           (mkState [mkVec 4 2; mkVec 3 2; mkVec 2 2] DIR_RIGHT (mkVec 0 0) 0 false)
           None [] (mkVec 4 2) [mkVec 3 2; mkVec 2 2]); reflexivity.
Defined.

(** ** Self collision *)

Lemma coiled_reachable : reachable GRID_W GRID_H coiled.
Proof.
  apply (steps_reachable _ _
           fresh
           [None; Some K_UP; Some K_LEFT] [0; 0] _ []).
  - by apply (reach_reset _ _ [17; 12; 0; 0] _ [0; 0]).
  - by vm_compute.
Qed.

(** C2, as the specification states it, fails: a move that does not eat
    and whose new head is the current tail cell ends the game. *)
Lemma move_into_tail_is_collision :
  reachable GRID_W GRID_H coiled
  ∧ last (snake coiled) = Some (mkVec 16 12)
  ∧ new_head coiled (Some DIR_DOWN) = Some (mkVec 16 12)
  ∧ mkVec 16 12 ≠ food coiled
  ∧ ∃ st', step GRID_W GRID_H coiled (Some DIR_DOWN) [] = Ok (st', [])
           ∧ game_over st' = true.
Proof.
  split; [apply coiled_reachable|].
  split_and!; [done..|].
  eexists. split; [by vm_compute|]. done.
Qed.

(** C2, amended: in a running game a move whose new head lies on the
    grid is a self collision exactly when that head is a cell of the body
    as it is before the move, the tail cell included, whether or not the
    move would eat; as the new head differs from the old head, this is
    the test against all segments but the head, taken before the tail is
    removed. A move that is no collision and does not eat drops the
    tail. *)
Theorem self_collision (W H : Z) st intent t h body :
  game_over st = false → snake st = h :: body →
  let d := heading st intent in
  let nh := h +v d in
  in_grid W H nh →
  (nh ∈ snake st → step W H st intent t = Ok (crashed st d nh, t))
  ∧ (last (snake st) = Some nh → step W H st intent t = Ok (crashed st d nh, t))
  ∧ (nh ∉ snake st → ∀ st' t', step W H st intent t = Ok (st', t') →
       game_over st' = true → nh = food st ∧ st' = won st d nh)
  ∧ (nh ∉ snake st → nh ≠ food st →
       step W H st intent t = Ok (moved st d nh, t))
  ∧ (d ≠ mkVec 0 0 → nh ∈ snake st ↔ nh ∈ body).
Proof.
  intros Hrun Hsnake d nh Hin.
  pose proof (step_cases W H st intent t h body Hrun Hsnake) as Hstep.
  cbv zeta in Hstep. fold d nh in Hstep.
  apply out_of_bounds_false in Hin. rewrite Hin in Hstep.
  assert (nh ∈ snake st → step W H st intent t = Ok (crashed st d nh, t)) as Hhit.
  { intros Hself. rewrite Hstep. by rewrite decide_True. }
  split_and!.
  - done.
  - intros Hlast. apply Hhit.
    destruct (snake st) as [|a l] using rev_ind; [done|].
    rewrite last_snoc in Hlast. injection Hlast as ->.
    apply elem_of_app. right. apply list_elem_of_singleton. done.
  - intros Hfree st' t' Hok Hover. rewrite Hstep in Hok.
    rewrite decide_False in Hok by done.
    destruct (decide (nh = food st)) as [Heat|Hne].
    + split; [done|].
      destruct (random_free_cell W H _ t) as [[f t'']|[]|]; simplify_eq; done.
    + by simplify_eq.
  - intros Hfree Hne. rewrite Hstep.
    by rewrite decide_False, decide_False.
  - intros Hd. rewrite Hsnake, elem_of_cons.
    split; [|by right]. intros [Heq|Hb]; [|done].
    exfalso. apply Hd. subst nh. destruct h as [x y], d as [dx dy].
    unfold vadd in Heq; simpl in Heq. injection Heq as ??. f_equal; lia.
Qed.

Lemma self_collision_witness :
  step GRID_W GRID_H coiled (Some DIR_DOWN) []
  = Ok (crashed coiled DIR_DOWN (mkVec 16 12), []).
Proof.
  refine (proj1 (proj2 (self_collision GRID_W GRID_H coiled (Some DIR_DOWN) []
                  (mkVec 16 11) [mkVec 17 11; mkVec 17 12; mkVec 16 12]
                  eq_refl eq_refl _)) eq_refl).
  unfold in_grid, GRID_W, GRID_H; simpl. lia.
Defined.

(** ** Game over is absorbing *)

(** C6: once [game_over] is set, a tick leaves body, heading, food, score
    and the flag as they are, whatever the key and however many ticks
    follow; it draws no random number either. *)
Theorem game_over_absorbing (W H : Z) st intents t :
  game_over st = true →
  steps W H st intents t = Ok (st, t)
  ∧ ∀ intent, step W H st intent t = Ok (st, t).
Proof.
  intros Hover. split.
  - by apply steps_game_over.
  - intros intent. by apply step_game_over.
Qed.

Lemma game_over_absorbing_witness :
  steps GRID_W GRID_H (crashed at_right_wall DIR_RIGHT (mkVec 32 12))
        [Some DIR_UP; None; Some DIR_LEFT] [5; 7]
  = Ok (crashed at_right_wall DIR_RIGHT (mkVec 32 12), [5; 7]).
Proof.
  apply (game_over_absorbing GRID_W GRID_H
           (crashed at_right_wall DIR_RIGHT (mkVec 32 12))
           [Some DIR_UP; None; Some DIR_LEFT] [5; 7]).
  reflexivity.
Defined.

(** ** Reversal is rejected *)

Lemma is_opposite_spec (a b : Vec) :
  is_opposite a b = true ↔ vx a = - vx b ∧ vy a = - vy b.
Proof. unfold is_opposite. lia. Qed.

(** A running tick returns once the tape is long enough: some tape makes
    it return. *)
Lemma step_returns (W H : Z) st intent h body :
  game_over st = false → snake st = h :: body →
  ∃ t st' t', step W H st intent t = Ok (st', t').
Proof.
  intros Hrun Hsnake.
  pose proof (λ t, step_cases W H st intent t h body Hrun Hsnake) as Hstep.
  cbv zeta in Hstep.
  destruct (out_of_bounds W H (h +v heading st intent)) eqn:Hoob.
  { exists []. eauto. }
  apply out_of_bounds_false in Hoob as Hin.
  destruct (decide (h +v heading st intent ∈ snake st)).
  { exists []. eauto. }
  destruct (decide (h +v heading st intent = food st)).
  2: { exists []. eauto. }
  set (occupied := list_to_set (h +v heading st intent :: snake st) : gset Vec)
    in Hstep.
  destruct (decide (W * H ≤ Z.of_nat (size occupied))) as [Hfull|Hroom].
  - exists []. specialize (Hstep []).
    apply (random_free_cell_RuntimeError W H occupied []) in Hfull.
    rewrite Hfull in Hstep. eauto.
  - destruct (free_cell_exists W H occupied) as (p & Hp & Hfree);
      [lia|unfold in_grid in Hin; lia|].
    exists [vx p; vy p]. specialize (Hstep [vx p; vy p]).
    rewrite random_free_cell_hit in Hstep by (done || lia). eauto.
Qed.

(** C8: in a running game, a key that is the exact negation of the
    current heading leaves the heading as it is and the snake moves on in
    the old heading; any other key becomes the heading before the move.
    The tick raises nothing and returns on a long enough tape. With
    heading right and key left the heading stays right and the head moves
    one cell to the right. *)
Theorem reversal_rejected (W H : Z) st cand h body :
  game_over st = false → snake st = h :: body →
  let d := if is_opposite cand (direction st) then direction st else cand in
  (is_opposite cand (direction st) = true
     ↔ vx cand = - vx (direction st) ∧ vy cand = - vy (direction st))
  ∧ (∀ t st' t', step W H st (Some cand) t = Ok (st', t') →
       direction st' = d ∧ head (snake st') = Some (h +v d))
  ∧ (∀ t e, step W H st (Some cand) t ≠ Raise e)
  ∧ (∃ t st' t', step W H st (Some cand) t = Ok (st', t'))
  ∧ (direction st = DIR_RIGHT → cand = DIR_LEFT →
       ∀ t st' t', step W H st (Some cand) t = Ok (st', t') →
         direction st' = DIR_RIGHT ∧ head (snake st') = Some (h +v DIR_RIGHT)).
Proof.
  intros Hrun Hsnake d.
  assert (∀ t st' t', step W H st (Some cand) t = Ok (st', t') →
            direction st' = d ∧ head (snake st') = Some (h +v d)) as Hmove.
  { intros t st' t' Hstep.
    apply (step_Ok_inv W H st (Some cand) t st' t' h body Hrun Hsnake) in Hstep.
    cbv zeta in Hstep. change (heading st (Some cand)) with d in Hstep.
    destruct Hstep as [(-> & _)|[(-> & _)|[(f & -> & _)|(-> & _)]]]; done. }
  split_and!.
  - apply is_opposite_spec.
  - done.
  - intros t e. by eapply step_no_Raise.
  - by eapply step_returns.
  - intros Hdir -> t st' t' Hstep. apply Hmove in Hstep.
    subst d. by rewrite Hdir in Hstep.
Qed.

(** Heading right, key left, on the program's grid right after reset. *)
Lemma reversal_rejected_witness :
  direction (moved started DIR_RIGHT (mkVec 17 12)) = DIR_RIGHT
  ∧ head (snake (moved started DIR_RIGHT (mkVec 17 12)))
    = Some (mkVec 16 12 +v DIR_RIGHT).
Proof.
  refine (proj2 (proj2 (proj2 (proj2
    (reversal_rejected GRID_W GRID_H started DIR_LEFT (mkVec 16 12)
       [mkVec 15 12; mkVec 14 12] eq_refl eq_refl))))
    eq_refl eq_refl [] (moved started DIR_RIGHT (mkVec 17 12)) [] _).
  vm_compute. reflexivity.
Defined.

(** ** Food and body *)

(** *** Filling the grid

    A snake that finds its food on the next cell at every tick, along a
    walk that visits every free cell once, ends by filling the grid. *)

Lemma is_opposite_neg (cand d : Vec) : is_opposite cand d = true → cand = neg d.
Proof.
  intros [??]%is_opposite_spec. destruct cand, d; unfold neg; simpl in *.
  by f_equal.
Qed.

Lemma vadd_neg (h d : Vec) : h +v d +v neg d = h.
Proof. destruct h, d; unfold vadd, neg; simpl. f_equal; lia. Qed.

Section Feeding.
Variables W H : Z.

Lemma feed keys : ∀ st h body,
  reachable W H st → game_over st = false → snake st = h :: body →
  h +v neg (direction st) ∈ snake st →
  keys ≠ [] →
  head (walk h keys) = Some (food st) →
  NoDup (reverse (snake st) ++ walk h keys) →
  Forall (in_grid W H) (walk h keys) →
  Z.of_nat (length (snake st) + length keys) = W * H →
  ∃ st', reachable W H st'
         ∧ game_over st' = true
         ∧ snake st' = reverse (walk h keys) ++ snake st
         ∧ head (snake st') = Some (food st')
         ∧ score st' = score st + Z.of_nat (length keys)
         ∧ Some (direction st') = key_to_dir <$> last keys.
Proof.
  induction keys as [|k keys IH];
    intros st h body Hreach Hrun Hsnake Hneck Hne Hfood Hnodup Hgrid Hlen;
    [done|].
  simpl in Hfood, Hnodup, Hgrid. injection Hfood as Hfood.
  set (d := key_to_dir k) in *. set (nh := h +v d) in *.
  apply NoDup_app in Hnodup as (Hsn & Hdisj & Hwalk).
  assert (NoDup (snake st)) as Hsn' by by rewrite reverse_Permutation in Hsn.
  assert (nh ∉ snake st) as Hfree.
  { intros Hin. apply (Hdisj nh); [by apply elem_of_reverse|left]. }
  assert (heading st (Some d) = d) as Hhead.
  { unfold heading. destruct (is_opposite d (direction st)) eqn:Hopp; [|done].
    destruct Hfree. apply is_opposite_neg in Hopp. subst nh.
    by rewrite Hopp. }
  apply Forall_cons in Hgrid as [Hnh Hgrid].
  apply out_of_bounds_false in Hnh as Hoob.
  assert (∀ t, step W H st (Some d) t =
            match random_free_cell W H (list_to_set (nh :: snake st)) t with
            | Ok (f, t') => Ok (grown st d nh f, t')
            | Raise RuntimeError => Ok (won st d nh, t)
            | Raise e => Raise e
            | Starved => Starved
            end) as Hstep.
  { intros t. rewrite (step_cases W H st (Some d) t h body Hrun Hsnake).
    cbv zeta. rewrite Hhead. fold nh. rewrite Hoob.
    by rewrite decide_False, decide_True. }
  assert (size (list_to_set (nh :: snake st) : gset Vec)
          = S (length (snake st))) as Hsize.
  { rewrite size_list_to_set; [done|]. by apply NoDup_cons. }
  destruct keys as [|k2 keys].
  - (* the last free cell *)
    specialize (Hstep []).
    rewrite (proj2 (random_free_cell_RuntimeError W H _ [])) in Hstep
      by (rewrite Hsize; simpl in Hlen; lia).
    exists (won st d nh). split_and!; simpl.
    + by eapply (reach_step W H st (Some k)).
    + done.
    + done.
    + by rewrite Hfood.
    + lia.
    + done.
  - (* food again on the next cell of the walk *)
    set (f := nh +v key_to_dir k2).
    assert (in_grid W H f) as Hf.
    { simpl in Hgrid. by apply Forall_cons in Hgrid as [? _]. }
    assert (f ∉ nh :: snake st) as Hffree.
    { rewrite elem_of_cons. intros [Heq|Hin].
      - simpl in Hwalk. apply NoDup_cons in Hwalk as [Hnin _].
        apply Hnin. apply elem_of_cons. by left.
      - apply (Hdisj f); [by apply elem_of_reverse|].
        simpl. right. left. }
    specialize (Hstep [vx f; vy f]).
    rewrite random_free_cell_hit in Hstep;
      [|rewrite Hsize; simpl in Hlen; lia|done|by rewrite elem_of_list_to_set].
    destruct (IH (grown st d nh f) nh (snake st))
      as (st' & ? & ? & Hs & ? & Hsc & Hdir).
    + by eapply (reach_step W H st (Some k)).
    + done.
    + done.
    + simpl. unfold nh at 1. rewrite vadd_neg, Hsnake, !elem_of_cons.
      right; by left.
    + done.
    + done.
    + simpl. rewrite reverse_cons, <- app_assoc. simpl.
      apply NoDup_app. split_and!; done.
    + done.
    + simpl. simpl in Hlen. lia.
    + exists st'. split_and!; [done..| |done| |done].
      * rewrite Hs.
        change (walk h (k :: k2 :: keys)) with (nh :: walk nh (k2 :: keys)).
        by rewrite reverse_cons, <- app_assoc.
      * rewrite Hsc. simpl. lia.
Qed.

End Feeding.

Lemma filled_reachable : reachable GRID_W GRID_H filled.
Proof.
  destruct (feed GRID_W GRID_H winning_keys fresh (mkVec 16 12)
              [mkVec 15 12; mkVec 14 12])
    as (st' & Hreach & Hover & Hsnake & Hhead & Hscore & Hdir).
  - by apply (reach_reset _ _ [17; 12] _ []).
  - done.
  - done.
  - apply (bool_decide_unpack _). vm_compute. exact I.
  - done.
  - by vm_compute.
  - apply (bool_decide_unpack _). vm_compute. exact I.
  - apply (bool_decide_unpack _). vm_compute. exact I.
  - by vm_compute.
  - destruct st' as [sn dir fd sc over].
    cbn [snake direction food score game_over] in *.
    assert (fd = mkVec 14 21) as ->.
    { rewrite Hsnake in Hhead. vm_compute in Hhead. by injection Hhead. }
    assert (dir = DIR_DOWN) as ->.
    { vm_compute in Hdir. by injection Hdir. }
    assert (sc = 765) as -> by (rewrite Hscore; by vm_compute).
    rewrite Hover, Hsnake in Hreach. exact Hreach.
Qed.

Lemma filled_4x1_reachable : reachable 4 1 filled_4x1.
Proof.
  apply (reach_step 4 1
           (mkState [mkVec 2 0; mkVec 1 0; mkVec 0 0] DIR_RIGHT (mkVec 3 0) 0 false)
           None [] _ []).
  - by apply (reach_reset _ _ [3; 0] _ []).
  - by vm_compute.
Qed.

(** C3, as the specification states it, fails: the program's 32 x 24
    grid can be filled, and in the state that ends the game by filling it
    the food is still on the cell just eaten, which is the head of the
    body. The same happens at the first tick on a 4 x 1 grid. *)
Lemma food_under_head_after_fill :
  (reachable GRID_W GRID_H filled
   ∧ game_over filled = true
   ∧ head (snake filled) = Some (food filled)
   ∧ food filled ∈ snake filled)
  ∧ (reachable 4 1 filled_4x1
     ∧ game_over filled_4x1 = true
     ∧ food filled_4x1 ∈ snake filled_4x1).
Proof.
  split.
  - split; [apply filled_reachable|]. split; [done|].
    assert (head (snake filled) = Some (food filled)) as Hhead by by vm_compute.
    split; [done|].
    destruct (snake filled) as [|h rest]; [done|].
    injection Hhead as ->. by left.
  - split; [apply filled_4x1_reachable|]. split; [done|]. simpl. by left.
Qed.

(** C3, amended: in every reachable state the food is a cell of the
    grid; it is no cell of the body while the game runs, nor after a wall
    or self collision; it is a cell of the body only in the state that
    ends the game by filling the grid, where the food is left on the cell
    just eaten, now the head. *)
Theorem food_off_body (W H : Z) st :
  reachable W H st →
  in_grid W H (food st)
  ∧ (game_over st = false → food st ∉ snake st)
  ∧ (food st ∈ snake st →
       game_over st = true ∧ head (snake st) = Some (food st)
       ∧ W * H ≤ Z.of_nat (size (list_to_set (snake st) : gset Vec))).
Proof.
  intros [_ Hgrid _ Hfree]%reachable_invariant.
  split_and!; [done| |].
  - intros Hrun. destruct Hfree as [|[? _]]; [done|congruence].
  - intros Hin. by destruct Hfree as [|].
Qed.

Lemma food_off_body_witness :
  in_grid 4 1 (food filled_4x1)
  ∧ game_over filled_4x1 = true
  ∧ head (snake filled_4x1) = Some (food filled_4x1)
  ∧ 4 * 1 ≤ Z.of_nat (size (list_to_set (snake filled_4x1) : gset Vec)).
Proof.
  assert (reachable 4 1 filled_4x1) as Hreach.
  { apply (reach_step 4 1
             (mkState [mkVec 2 0; mkVec 1 0; mkVec 0 0] DIR_RIGHT (mkVec 3 0) 0 false)
             None [] _ []).
    - apply (reach_reset _ _ [3; 0] _ []). vm_compute. reflexivity.
    - vm_compute. reflexivity. }
  assert (food filled_4x1 ∈ snake filled_4x1) as Hin by (simpl; left).
  exact (conj (proj1 (food_off_body 4 1 filled_4x1 Hreach))
              (proj2 (proj2 (food_off_body 4 1 filled_4x1 Hreach)) Hin)).
Defined.

(** ** No duplicate in a live body *)

(** C7: in every reachable state with the game running, no position
    occurs twice in the body. *)
Theorem body_NoDup (W H : Z) st :
  reachable W H st → game_over st = false → NoDup (snake st).
Proof. intros Hinv%reachable_invariant. apply Hinv. Qed.

Lemma body_NoDup_witness : NoDup (snake coiled).
Proof.
  apply (body_NoDup GRID_W GRID_H coiled).
  - apply (steps_reachable _ _
             fresh
             [None; Some K_UP; Some K_LEFT] [0; 0] _ []).
    + apply (reach_reset _ _ [17; 12; 0; 0] _ [0; 0]). vm_compute. reflexivity.
    + vm_compute. reflexivity.
  - reflexivity.
Defined.

(** ** Score *)

Lemma eats_running st intent h body :
  game_over st = false → snake st = h :: body →
  eats st intent = bool_decide (h +v heading st intent = food st).
Proof.
  intros Hrun Hsnake. unfold eats, new_head. rewrite Hrun, Hsnake. simpl.
  apply bool_decide_ext. split; [by intros [= ->]|by intros ->].
Qed.

Lemma step_score (W H : Z) st intent t st' t' :
  invariant W H st → step W H st intent t = Ok (st', t') →
  score st' = score st + (if eats st intent then 1 else 0).
Proof.
  intros Hinv Hstep.
  destruct (game_over st) eqn:Hover.
  { rewrite step_game_over in Hstep by done. injection Hstep as <- _.
    unfold eats. rewrite Hover. simpl. lia. }
  destruct Hinv as [Hne Hfood _ Hfree].
  destruct Hfree as [Hfree|[? _]]; [|congruence].
  destruct (snake st) as [|h body] eqn:Hsnake; [done|].
  rewrite (eats_running st intent h body Hover Hsnake).
  apply (step_Ok_inv W H st intent t st' t' h body Hover Hsnake) in Hstep.
  cbv zeta in Hstep. rewrite Hsnake in Hstep.
  destruct Hstep as [(-> & _ & Hcoll)|[(-> & _ & _ & _ & Hnf)
      |[(f & -> & _ & _ & Heat & _)|(-> & _ & _ & _ & Heat & _)]]]; simpl.
  - rewrite bool_decide_eq_false_2; [lia|]. intros Heq.
    destruct Hcoll as [Hout|Hin]; [by rewrite Heq in Hout|by rewrite Heq in Hin].
  - rewrite bool_decide_eq_false_2 by done. lia.
  - by rewrite bool_decide_eq_true_2.
  - by rewrite bool_decide_eq_true_2.
Qed.

(** C9: reset sets the score to 0; a tick from a reachable state adds
    exactly 1 when it is a food-eating tick (the game runs and the new
    head is the food cell) and leaves the score alone otherwise, so the
    score never decreases; after any run since the last reset the score
    is the number of food-eating ticks of the run. *)
Theorem score_counts_food (W H : Z) st n :
  run W H st n →
  score st = n
  ∧ 0 ≤ n
  ∧ ∀ (k : option Key) t st' t',
      step W H st (key_to_dir <$> k) t = Ok (st', t') →
      score st' = score st + (if eats st (key_to_dir <$> k) then 1 else 0)
      ∧ score st ≤ score st'.
Proof.
  intros Hrun.
  assert (score st = n ∧ 0 ≤ n) as [Hscore Hpos].
  { induction Hrun as [t st t' Hreset|st n k t st' t' Hrun [IH1 IH2] Hstep].
    - by apply reset_game_Ok in Hreset as (f & -> & _).
    - apply run_reachable, reachable_invariant in Hrun.
      rewrite (step_score W H st _ t st' t' Hrun Hstep).
      destruct (eats st _); lia. }
  split_and!; [done..|].
  intros k t st' t' Hstep.
  apply run_reachable, reachable_invariant in Hrun.
  rewrite (step_score W H st _ t st' t' Hrun Hstep).
  destruct (eats st _); lia.
Qed.

Lemma score_counts_food_witness : score fed_moved = 0 + 1 + 0.
Proof.
  refine (proj1 (score_counts_food GRID_W GRID_H fed_moved (0 + 1 + 0)
    (run_step GRID_W GRID_H fed (0 + 1) None [] fed_moved []
       (run_step GRID_W GRID_H fresh 0 None [0; 0] fed []
          (run_reset GRID_W GRID_H [17; 12] fresh [] _) _) _))).
  - vm_compute. reflexivity.
  - vm_compute. reflexivity.
  - vm_compute. reflexivity.
Defined.

(** ** The no-free-cell error *)

Lemma initial_snake_size (start : Vec) :
  size (list_to_set [start; start +v DIR_LEFT; start +v DIR_LEFT +v DIR_LEFT]
          : gset Vec) = 3%nat.
Proof. rewrite size_list_to_set; [done|]. apply initial_snake_NoDup. Qed.

Lemma reset_game_RuntimeError (W H : Z) t :
  reset_game W H t = Raise RuntimeError ↔ W * H ≤ 3.
Proof.
  pose proof (random_free_cell_RuntimeError W H
    (list_to_set [mkVec (W `div` 2) (H `div` 2);
                  mkVec (W `div` 2) (H `div` 2) +v DIR_LEFT;
                  mkVec (W `div` 2) (H `div` 2) +v DIR_LEFT +v DIR_LEFT]) t)
    as Hiff.
  rewrite initial_snake_size in Hiff. change (Z.of_nat 3) with 3 in Hiff.
  unfold reset_game, bind, ret. cbv zeta.
  destruct (random_free_cell W H _ t) as [[f t']|e|]; rewrite <- Hiff;
    split; congruence.
Qed.

(** The retry loop of [random_free_cell]. *)
Section Sampling.
Variables W H : Z.

Lemma sample_loop_rejects fuel occupied rejected p t :
  (length rejected < fuel)%nat →
  Forall (λ q, in_grid W H q ∧ q ∈ occupied) rejected →
  in_grid W H p → p ∉ occupied →
  sample_loop W H fuel occupied (draws rejected ++ vx p :: vy p :: t) = Ok (p, t).
Proof.
  revert fuel. induction rejected as [|q rejected IH];
    intros fuel Hfuel Hrej Hp Hfree.
  - destruct fuel as [|fuel]; [simpl in Hfuel; lia|].
    by apply sample_loop_hit.
  - destruct fuel as [|fuel]; [simpl in Hfuel; lia|].
    apply Forall_cons_1 in Hrej as [[Hq Hocc] Hrej].
    change (draws (q :: rejected)) with ([vx q; vy q] ++ draws rejected).
    cbn [app]. rewrite sample_loop_skip by done.
    apply IH; [simpl in Hfuel; lia|done..].
Qed.

Lemma draws_length cells : length (draws cells) = (2 * length cells)%nat.
Proof.
  induction cells as [|q cells IH]; [done|].
  change (draws (q :: cells)) with ([vx q; vy q] ++ draws cells).
  cbn [app length]. lia.
Qed.

End Sampling.

(** C4, as the specification states it, fails for reset: on a 3 x 1 grid
    the initial body leaves no cell free, and the error of
    [random_free_cell] comes out of [reset_game]. *)
Lemma reset_raises_on_3x1 : reset_game 3 1 [0; 0] = Raise RuntimeError.
Proof. by vm_compute. Qed.

(** C4, amended: [random_free_cell] raises its [RuntimeError] exactly when
    the occupied set has at least [W * H] elements, and otherwise returns
    a cell not in the occupied set: it draws again for as long as the cell
    drawn is occupied and returns the first drawn cell that is free, a
    cell of the grid, raising nothing on the way; with fewer elements than
    [W * H] such a cell exists. A tick of a running game raises nothing:
    the error raised while placing food is caught there and the state
    returned has [game_over] set. [reset_game] does not catch the error:
    it raises it exactly when [W * H <= 3], which the 32 x 24 grid of the
    program excludes. *)
Theorem no_free_cell (W H : Z) :
  (∀ occupied t,
     random_free_cell W H occupied t = Raise RuntimeError
     ↔ W * H ≤ Z.of_nat (size occupied))
  ∧ (∀ occupied t p t',
       random_free_cell W H occupied t = Ok (p, t') →
       in_grid W H p ∧ p ∉ occupied)
  ∧ (∀ occupied,
       Z.of_nat (size occupied) < W * H → 0 < H →
       ∃ p t t', random_free_cell W H occupied t = Ok (p, t'))
  ∧ (∀ st intent t e h body,
       game_over st = false → snake st = h :: body →
       step W H st intent t ≠ Raise e)
  ∧ (∀ st intent t h body,
       game_over st = false → snake st = h :: body →
       let d := heading st intent in
       let nh := h +v d in
       in_grid W H nh → nh ∉ snake st → nh = food st →
       random_free_cell W H (list_to_set (nh :: snake st)) t = Raise RuntimeError →
       step W H st intent t = Ok (won st d nh, t))
  ∧ (∀ t, reset_game W H t = Raise RuntimeError ↔ W * H ≤ 3)
  ∧ (∀ t, reset_game GRID_W GRID_H t ≠ Raise RuntimeError)
  ∧ (∀ occupied rejected p t,
       Z.of_nat (size occupied) < W * H →
       Forall (λ q, in_grid W H q ∧ q ∈ occupied) rejected →
       in_grid W H p → p ∉ occupied →
       random_free_cell W H occupied (draws rejected ++ draws [p] ++ t)
       = Ok (p, t))
  ∧ (∀ occupied t e,
       Z.of_nat (size occupied) < W * H → 0 < H →
       random_free_cell W H occupied t ≠ Raise e).
Proof.
  split_and!.
  - apply random_free_cell_RuntimeError.
  - intros occupied t p t' (? & ? & _)%random_free_cell_Ok. done.
  - apply random_free_cell_returns.
  - intros st intent t e h body. apply step_no_Raise.
  - intros st intent t h body Hrun Hsnake d nh Hin Hfree Heat Hfull.
    rewrite (step_cases W H st intent t h body Hrun Hsnake).
    fold d nh. apply out_of_bounds_false in Hin. rewrite Hin.
    rewrite decide_False, decide_True by done. by rewrite Hfull.
  - apply reset_game_RuntimeError.
  - intros t. rewrite reset_game_RuntimeError. unfold GRID_W, GRID_H. lia.
  - intros occupied rejected p t Hroom Hrej Hp Hfree. unfold random_free_cell.
    rewrite decide_False by lia.
    apply sample_loop_rejects; [|done..].
    rewrite length_app, draws_length. lia.
  - intros occupied t e Hroom HH Hraise. unfold random_free_cell in Hraise.
    rewrite decide_False in Hraise by lia.
    apply sample_loop_Raise in Hraise as [_ Hneg]. nia.
Qed.

(** Two occupied cells drawn, then a free one; and the error caught by
    the tick that fills a 4 x 1 grid. *)
Lemma no_free_cell_witness :
  random_free_cell GRID_W GRID_H (list_to_set (snake fed))
    (draws [mkVec 17 12; mkVec 14 12] ++ draws [mkVec 0 0] ++ [9])
  = Ok (mkVec 0 0, [9])
  ∧ step 4 1 (mkState [mkVec 2 0; mkVec 1 0; mkVec 0 0] DIR_RIGHT (mkVec 3 0) 0 false)
         None []
    = Ok (filled_4x1, []).
Proof.
  split.
  - refine (proj1 (proj2 (proj2 (proj2 (proj2 (proj2 (proj2 (proj2
              (no_free_cell GRID_W GRID_H))))))))
              (list_to_set (snake fed)) [mkVec 17 12; mkVec 14 12] (mkVec 0 0) [9]
              _ _ _ _).
    + vm_compute. reflexivity.
    + apply (bool_decide_unpack _). vm_compute. exact I.
    + apply (bool_decide_unpack _). vm_compute. exact I.
    + apply (bool_decide_unpack _). vm_compute. exact I.
  - refine (proj1 (proj2 (proj2 (proj2 (proj2 (no_free_cell 4 1)))))
              (mkState [mkVec 2 0; mkVec 1 0; mkVec 0 0] DIR_RIGHT (mkVec 3 0) 0 false)
              None [] (mkVec 2 0) [mkVec 1 0; mkVec 0 0] eq_refl eq_refl _ _ eq_refl _).
    + unfold in_grid; simpl. lia.
    + simpl. rewrite !elem_of_cons, elem_of_nil.
      intros [Heq|[Heq|[Heq|[]]]]; discriminate Heq.
    + vm_compute. reflexivity.
Defined.

(** ** Grids too small for the initial body *)

(** C5, as the specification states it, fails: on a 2 x 2 grid reset
    returns a game state, and a segment of its body is off the grid. *)
Lemma reset_returns_on_2x2 :
  reset_game 2 2 [0; 0]
  = Ok (mkState [mkVec 1 1; mkVec 0 1; mkVec (-1) 1] DIR_RIGHT (mkVec 0 0) 0 false,
        [])
  ∧ out_of_bounds 2 2 (mkVec (-1) 1) = true.
Proof. split; by vm_compute. Qed.

(** C5, amended: the grid size is not validated and there is no
    configuration error. On a grid with [W < 3] or [H < 1], reset raises
    the no-free-cell [RuntimeError] when [W * H <= 3], the [ValueError]
    of [randrange] when [W * H > 3] with negative sides, and otherwise
    ([W] is 1 or 2 and [W * H > 3]) raises nothing and returns a running
    game whose initial body has a segment off the grid. *)
Theorem small_grid_reset (W H : Z) t :
  W < 3 ∨ H < 1 →
  (W * H ≤ 3 → reset_game W H t = Raise RuntimeError)
  ∧ (3 < W * H → W ≤ 0 → reset_game W H t = Raise ValueError)
  ∧ (3 < W * H → 0 < W →
       (∀ e, reset_game W H t ≠ Raise e)
       ∧ (∃ t0 st t', reset_game W H t0 = Ok (st, t'))
       ∧ ∀ st t', reset_game W H t = Ok (st, t') →
           game_over st = false
           ∧ ∃ p, p ∈ snake st ∧ out_of_bounds W H p = true).
Proof.
  intros Hsmall. split_and!.
  - apply reset_game_RuntimeError.
  - intros Hroom HW. unfold reset_game, bind, random_free_cell.
    rewrite initial_snake_size. rewrite decide_False by lia.
    simpl. unfold bind, randrange. by rewrite decide_True.
  - intros Hroom HW.
    assert (0 < H) as HH by nia.
    assert (W < 3) as HW3 by lia.
    split_and!.
    + intros e. unfold reset_game, bind.
      destruct (random_free_cell W H _ t) as [[f t']|e'|] eqn:Hfood; [done| |done].
      unfold random_free_cell in Hfood. rewrite initial_snake_size in Hfood.
      rewrite decide_False in Hfood by lia.
      apply sample_loop_Raise in Hfood. lia.
    + destruct (random_free_cell_returns W H
                  (list_to_set [mkVec (W `div` 2) (H `div` 2);
                                mkVec (W `div` 2) (H `div` 2) +v DIR_LEFT;
                                mkVec (W `div` 2) (H `div` 2) +v DIR_LEFT +v DIR_LEFT]))
        as (p & t0 & t' & Hfood); [rewrite initial_snake_size; lia|done|].
      exists t0. do 2 eexists. unfold reset_game, bind. rewrite Hfood. done.
    + intros st t' (f & -> & _)%reset_game_Ok. split; [done|].
      eexists. split; [simpl; do 2 right; left|].
      assert (W `div` 2 < 2) by (apply Z.div_lt_upper_bound; lia).
      unfold out_of_bounds, vadd, DIR_LEFT; simpl. lia.
Qed.

Lemma small_grid_reset_witness :
  reset_game 2 1 [0; 0] = Raise RuntimeError.
Proof.
  refine (proj1 (small_grid_reset 2 1 [0; 0] _) _); lia.
Defined.

(** ** Fullness is a matter of cardinality *)

(** C10: [random_free_cell] compares the number of occupied positions
    with [W * H] and never asks whether they are cells of the grid: given
    [W * H] distinct positions all outside the grid it raises the
    no-free-cell error although every cell of the grid is free. *)
Theorem fullness_by_cardinality (W H : Z) t :
  let occupied : gset Vec := list_to_set (outside_cells W H) in
  NoDup (outside_cells W H)
  ∧ Z.of_nat (size occupied) = Z.max 0 (W * H)
  ∧ (∀ p, p ∈ occupied → out_of_bounds W H p = true)
  ∧ (∀ p, in_grid W H p → p ∉ occupied)
  ∧ random_free_cell W H occupied t = Raise RuntimeError.
Proof.
  intros occupied.
  assert (NoDup (outside_cells W H)) as Hnodup.
  { apply NoDup_fmap_2_strong; [|apply NoDup_seqZ].
    intros i j _ _ [=]. lia. }
  assert (Z.of_nat (size occupied) = Z.max 0 (W * H)) as Hsize.
  { subst occupied. rewrite size_list_to_set by done.
    unfold outside_cells. rewrite length_fmap, length_seqZ. lia. }
  assert (∀ p, p ∈ occupied → out_of_bounds W H p = true) as Hout.
  { intros p Hp. apply elem_of_list_to_set in Hp.
    apply list_elem_of_fmap in Hp as (i & -> & Hi).
    apply elem_of_seqZ in Hi. unfold out_of_bounds; simpl. lia. }
  split_and!; [done..| |].
  - intros p Hp Hocc. apply Hout in Hocc.
    apply out_of_bounds_false in Hp. congruence.
  - apply random_free_cell_RuntimeError. lia.
Qed.

(** * Further properties of the code *)

(** ** Direction, contiguity and length of the body *)

Lemma key_to_dir_unit (k : Key) : unit_dir (key_to_dir k).
Proof. unfold unit_dir. destruct k; simpl; auto. Qed.

Lemma unit_dir_adjacent (h d : Vec) : unit_dir d → adjacent (h +v d) h.
Proof.
  intros [-> | [-> | [-> | ->]]]; destruct h as [x y];
    unfold adjacent, vadd; simpl; lia.
Qed.

Lemma removelast_cons2 {A} (a b : A) (l : list A) :
  removelast (a :: b :: l) = a :: removelast (b :: l).
Proof. done. Qed.

Lemma contiguous_removelast (l : list Vec) :
  contiguous l → contiguous (removelast l).
Proof.
  induction l as [|a l IH]; [done|].
  destruct l as [|b l]; [done|].
  intros [Hab Hl]. rewrite removelast_cons2.
  specialize (IH Hl). destruct l as [|c l]; [done|].
  rewrite removelast_cons2 in *. done.
Qed.

Lemma length_removelast {A} (l : list A) :
  l ≠ [] → S (length (removelast l)) = length l.
Proof.
  induction l as [|a l IH]; [done|]. intros _.
  destruct l as [|b l]; [done|].
  rewrite removelast_cons2.
  change (S (S (length (removelast (b :: l)))) = S (length (b :: l))).
  by rewrite IH.
Qed.

Lemma heading_unit st (k : option Key) :
  unit_dir (direction st) → unit_dir (heading st (key_to_dir <$> k)).
Proof.
  intros Hdir. destruct k as [k|]; simpl; [|done].
  destruct (is_opposite _ _); [done|apply key_to_dir_unit].
Qed.

Section ShapeFacts.
Variables W H : Z.

Lemma reset_shape t st t' : reset_game W H t = Ok (st, t') → shape st.
Proof.
  intros (f & -> & _)%reset_game_Ok. split; simpl.
  - unfold unit_dir. auto.
  - unfold adjacent, vadd, DIR_LEFT; simpl. lia.
  - intros h n rest [= <- <- _]. unfold vadd, DIR_LEFT, DIR_RIGHT; simpl.
    f_equal; lia.
  - left. lia.
  - done.
Qed.

Lemma step_shape st (k : option Key) t st' t' :
  snake st ≠ [] → shape st →
  step W H st (key_to_dir <$> k) t = Ok (st', t') → shape st'.
Proof.
  intros Hne Hshape Hstep.
  destruct (game_over st) eqn:Hover.
  { rewrite step_game_over in Hstep by done. by injection Hstep as <- _. }
  destruct Hshape as [Hdir Hcont Hneck Hlen Hscore].
  destruct Hlen as [Hlen|[? _]]; [|congruence].
  destruct (snake st) as [|h body] eqn:Hsnake; [done|].
  pose proof (heading_unit st k Hdir) as Hd.
  pose proof (unit_dir_adjacent h _ Hd) as Hadj.
  apply (step_Ok_inv W H st _ t st' t' h body Hover Hsnake) in Hstep.
  cbv zeta in Hstep. rewrite Hsnake in Hstep.
  set (d := heading st (key_to_dir <$> k)) in *.
  assert (contiguous (h +v d :: removelast (h :: body))) as Hcont'.
  { destruct body as [|b body]; [done|].
    rewrite removelast_cons2. split; [done|].
    rewrite <- removelast_cons2. by apply contiguous_removelast. }
  assert (∀ h' n rest, h +v d :: removelast (h :: body) = h' :: n :: rest →
            h' = n +v d) as Hneck'.
  { destruct body as [|b body]; [done|].
    rewrite removelast_cons2. by intros h' n rest [= <- <- _]. }
  destruct Hstep as [(-> & _)|[(-> & _)|[(f & -> & _)|(-> & _)]]];
    split; simpl; rewrite ?Hsnake; try done;
    try (by intros h' n rest [= <- <- _]);
    pose proof (length_removelast (h :: body) ltac:(done));
    cbn [length] in *; lia.
Qed.

Lemma reachable_shape st : reachable W H st → shape st.
Proof.
  induction 1 as [t st t' Hreset|st k t st' t' Hreach IH Hstep].
  - by eapply reset_shape.
  - eapply step_shape; [|done..].
    by apply reachable_invariant in Hreach as [? _ _ _].
Qed.

End ShapeFacts.

(** X2: in every reachable state the direction is one of the four
    directions of the key table. *)
Theorem direction_is_unit (W H : Z) st :
  reachable W H st → unit_dir (direction st).
Proof. intros Hshape%reachable_shape. apply Hshape. Qed.

Lemma direction_is_unit_witness : unit_dir (direction coiled).
Proof. apply (direction_is_unit GRID_W GRID_H coiled coiled_reachable). Defined.

(** The length of the body after game over, by the way the game ended. *)
Lemma game_over_length (W H : Z) st :
  reachable W H st → game_over st = true →
  ∃ h body, snake st = h :: body
    ∧ (((out_of_bounds W H h = true ∨ h ∈ body)
        ∧ Z.of_nat (length (snake st)) = score st + 4)
       ∨ (out_of_bounds W H h = false ∧ (h ∉ body)
          ∧ h = food st ∧ grid_full W H st
          ∧ Z.of_nat (length (snake st)) = score st + 3)).
Proof.
  induction 1 as [t st t' Hreset|st k t st' t' Hreach IH Hstep]; intros Hover'.
  - by apply reset_game_Ok in Hreset as (f & -> & _).
  - destruct (game_over st) eqn:Hover.
    { rewrite step_game_over in Hstep by done. injection Hstep as <- _.
      by apply IH. }
    pose proof (reachable_invariant W H st Hreach) as [Hne _ _ _].
    pose proof (reachable_shape W H st Hreach) as [_ _ _ Hlen _].
    destruct Hlen as [Hlen|[? _]]; [|congruence].
    destruct (snake st) as [|h body] eqn:Hsnake; [done|].
    apply (step_Ok_inv W H st _ t st' t' h body Hover Hsnake) in Hstep.
    cbv zeta in Hstep. rewrite Hsnake in Hstep.
    destruct Hstep as [(-> & _ & Hcoll)|[(-> & _)
      |[(f & -> & _)|(-> & _ & Hnh & Hself & Heat & Hfull)]]]; try done;
      simpl; rewrite Hsnake; eexists _, _; (split; [done|]).
    + left. split; [|cbn [length] in *; lia].
      destruct Hcoll as [Hout|Hin]; [left|by right].
      by apply out_of_bounds_true.
    + right. apply out_of_bounds_false in Hnh.
      split_and!; [done..| |cbn [length] in *; lia].
      unfold grid_full. simpl. by rewrite Hsnake.
Qed.

(** X3: the score is never negative and the body is three segments
    longer than it while the game runs. After game over the length tells
    how the game ended: after a wall or self collision (the head is off
    the grid or on another segment) the body is four segments longer than
    the score, the head that was put in front being kept; after a win by
    filling the grid (the head is on the grid, on no other segment and on
    the food cell, the grid full) it is three segments longer. *)
Theorem length_is_score_plus_3 (W H : Z) st :
  reachable W H st →
  0 ≤ score st
  ∧ (game_over st = false → Z.of_nat (length (snake st)) = score st + 3)
  ∧ (game_over st = true →
       ∃ h body, snake st = h :: body
         ∧ (((out_of_bounds W H h = true ∨ h ∈ body)
             ∧ Z.of_nat (length (snake st)) = score st + 4)
            ∨ (out_of_bounds W H h = false ∧ (h ∉ body)
               ∧ h = food st ∧ grid_full W H st
               ∧ Z.of_nat (length (snake st)) = score st + 3))).
Proof.
  intros Hreach.
  pose proof (reachable_shape W H st Hreach) as [_ _ _ Hlen Hscore].
  split_and!; [done| |].
  - intros Hrun. destruct Hlen as [|[? _]]; [done|congruence].
  - by apply game_over_length.
Qed.

(** A running state, a state after a wall collision and a state after a
    win on the program's grid. *)
Lemma length_is_score_plus_3_witness :
  Z.of_nat (length (snake coiled)) = score coiled + 3
  ∧ (∃ h body, snake (crashed at_right_wall DIR_RIGHT (mkVec 32 12)) = h :: body
       ∧ (((out_of_bounds GRID_W GRID_H h = true ∨ h ∈ body)
           ∧ Z.of_nat (length (snake (crashed at_right_wall DIR_RIGHT (mkVec 32 12))))
             = score (crashed at_right_wall DIR_RIGHT (mkVec 32 12)) + 4)
          ∨ (out_of_bounds GRID_W GRID_H h = false ∧ (h ∉ body)
             ∧ h = food (crashed at_right_wall DIR_RIGHT (mkVec 32 12))
             ∧ grid_full GRID_W GRID_H (crashed at_right_wall DIR_RIGHT (mkVec 32 12))
             ∧ Z.of_nat (length (snake (crashed at_right_wall DIR_RIGHT (mkVec 32 12))))
               = score (crashed at_right_wall DIR_RIGHT (mkVec 32 12)) + 3))).
Proof.
  split.
  - exact (proj1 (proj2 (length_is_score_plus_3 GRID_W GRID_H coiled
                           coiled_reachable)) eq_refl).
  - refine (proj2 (proj2 (length_is_score_plus_3 GRID_W GRID_H
                            (crashed at_right_wall DIR_RIGHT (mkVec 32 12)) _))
              eq_refl).
    apply (reach_step GRID_W GRID_H at_right_wall None [] _ []).
    + exact at_right_wall_reachable.
    + vm_compute. reflexivity.
Defined.

(** X4: in every reachable state each segment of the body is next to the
    following one (they differ by one step in one coordinate), also after
    game over. *)
Theorem body_contiguous (W H : Z) st :
  reachable W H st → contiguous (snake st).
Proof. intros Hshape%reachable_shape. apply Hshape. Qed.

Lemma body_contiguous_witness : contiguous (snake coiled).
Proof. apply (body_contiguous GRID_W GRID_H coiled coiled_reachable). Defined.

(** X5: from a reachable running state, whatever key is pressed, the
    direction after the tick is not the opposite of the direction before,
    and the new head is not the cell of the second segment: the snake
    never turns back onto its neck. *)
Theorem no_turn_back (W H : Z) st (k : option Key) t st' t' :
  reachable W H st → game_over st = false →
  step W H st (key_to_dir <$> k) t = Ok (st', t') →
  is_opposite (direction st') (direction st) = false
  ∧ head (snake st') ≠ snake st !! 1%nat.
Proof.
  intros Hreach Hrun Hstep.
  pose proof (reachable_shape W H st Hreach) as [Hdir _ Hneck _ _].
  apply reachable_invariant in Hreach as [Hne _ _ _].
  destruct (snake st) as [|h body] eqn:Hsnake; [done|].
  apply (step_Ok_inv W H st _ t st' t' h body Hrun Hsnake) in Hstep.
  cbv zeta in Hstep.
  set (d := heading st (key_to_dir <$> k)) in *.
  assert (is_opposite d (direction st) = false) as Hopp.
  { subst d. destruct k as [k|]; simpl.
    - destruct (is_opposite (key_to_dir k) (direction st)) eqn:Hk; [|done].
      destruct Hdir as [-> | [-> | [-> | ->]]]; done.
    - destruct Hdir as [-> | [-> | [-> | ->]]]; done. }
  assert (direction st' = d ∧ head (snake st') = Some (h +v d)) as [-> ->].
  { destruct Hstep as [(-> & _)|[(-> & _)|[(f & -> & _)|(-> & _)]]]; done. }
  split; [done|].
  destruct body as [|n rest]; [done|]. simpl. intros [= Heq].
  specialize (Hneck h n rest eq_refl).
  apply not_true_iff_false in Hopp. apply Hopp, is_opposite_spec.
  rewrite Hneck in Heq. destruct n, d, (direction st); unfold vadd in Heq;
    simpl in *. injection Heq as ??. lia.
Qed.

Lemma no_turn_back_witness :
  is_opposite (direction (moved fed DIR_RIGHT (mkVec 18 12))) (direction fed) = false
  ∧ head (snake (moved fed DIR_RIGHT (mkVec 18 12))) ≠ snake fed !! 1%nat.
Proof.
  apply (no_turn_back GRID_W GRID_H fed (Some K_LEFT) []
           (moved fed DIR_RIGHT (mkVec 18 12)) []).
  - apply (reach_step _ _ fresh None [0; 0] _ []).
    + apply (reach_reset _ _ [17; 12] _ []). vm_compute. reflexivity.
    + vm_compute. reflexivity.
  - reflexivity.
  - vm_compute. reflexivity.
Defined.

(** ** The body and the grid *)

Lemma Forall_removelast {A} (P : A → Prop) (l : list A) :
  Forall P l → Forall P (removelast l).
Proof.
  rewrite !Forall_forall. intros Hall x Hx. apply Hall.
  eapply elem_of_sublist; [done|]. apply removelast_sublist.
Qed.

Section Housing.
Variables W H : Z.

Lemma in_grid_grid_cells p : in_grid W H p → p ∈ grid_cells W H.
Proof.
  intros [Hx Hy]. unfold grid_cells.
  apply list_elem_of_fmap. exists (vx p * H + vy p). split.
  - unfold cell_of_index. destruct p as [x y]; simpl in *. f_equal.
    + rewrite Z.div_add_l, Z.div_small by lia. lia.
    + rewrite Z.add_comm, Z.mod_add, Z.mod_small by lia. done.
  - apply elem_of_seqZ. nia.
Qed.

(** Distinct cells of the grid are at most [W * H]. *)
Lemma NoDup_in_grid_length (l : list Vec) :
  l ≠ [] → NoDup l → Forall (in_grid W H) l → Z.of_nat (length l) ≤ W * H.
Proof.
  intros Hne Hnodup Hall.
  assert (0 < W ∧ 0 < H) as [HW HH].
  { destruct l as [|p l]; [done|].
    apply Forall_cons_1 in Hall as [[??] _]. lia. }
  assert (l ⊆+ grid_cells W H) as Hsub.
  { apply NoDup_submseteq; [done|]. intros p Hp.
    apply in_grid_grid_cells. by eapply Forall_forall in Hall. }
  apply submseteq_length in Hsub.
  pose proof (grid_cells_length W H ltac:(nia)). lia.
Qed.

End Housing.

Section HousingInvariant.
Variables W H : Z.
Hypothesis wide : 4 ≤ W.

Lemma reset_housed t st t' :
  reset_game W H t = Ok (st, t') → housed W H st.
Proof.
  intros (f & -> & [_ Hfy] & _)%reset_game_Ok.
  assert (0 < H) as HH by lia.
  assert (2 ≤ W `div` 2) by (apply Z.div_le_lower_bound; lia).
  assert (W `div` 2 < W) by (apply Z.div_lt_upper_bound; lia).
  assert (0 ≤ H `div` 2) by (apply Z.div_pos; lia).
  assert (H `div` 2 < H) by (apply Z.div_lt_upper_bound; lia).
  assert (Forall (in_grid W H)
            [mkVec (W `div` 2) (H `div` 2);
             mkVec (W `div` 2) (H `div` 2) +v DIR_LEFT;
             mkVec (W `div` 2) (H `div` 2) +v DIR_LEFT +v DIR_LEFT]) as Hall.
  { repeat apply Forall_cons_2; try apply Forall_nil_2;
      unfold in_grid, vadd, DIR_LEFT; simpl; lia. }
  split_and!; simpl.
  - done.
  - by apply Forall_cons_1 in Hall as [_ ?].
  - nia.
Qed.

Lemma step_housed st intent t st' t' :
  invariant W H st → shape st → housed W H st →
  step W H st intent t = Ok (st', t') → housed W H st'.
Proof.
  intros Hinv Hshape Hhoused Hstep.
  destruct (game_over st) eqn:Hover.
  { rewrite step_game_over in Hstep by done. by injection Hstep as <- _. }
  destruct Hinv as [Hne _ Hnodup _]. specialize (Hnodup Hover).
  destruct Hshape as [_ _ _ Hlen _].
  destruct Hlen as [Hlen|[? _]]; [|congruence].
  destruct Hhoused as (Hall & _ & Hscore). specialize (Hall Hover).
  destruct (snake st) as [|h body] eqn:Hsnake; [done|].
  apply (step_Ok_inv W H st intent t st' t' h body Hover Hsnake) in Hstep.
  cbv zeta in Hstep. rewrite Hsnake in Hstep.
  set (nh := h +v heading st intent) in *.
  assert (in_grid W H nh → nh ∉ h :: body →
            score st + 1 + 3 ≤ W * H) as Hgrow.
  { intros Hnh Hfree.
    pose proof (NoDup_in_grid_length W H (nh :: h :: body)) as Hbound.
    cbn [length] in *. rewrite Nat2Z.inj_succ in Hbound.
    enough (Z.succ (Z.of_nat (S (length body))) ≤ W * H) by lia.
    apply Hbound; [done|by apply NoDup_cons|by apply Forall_cons_2]. }
  destruct Hstep as [(-> & _)|[(-> & _ & Hnh & _)
    |[(f & -> & Hnh & Hfree & _)|(-> & _ & Hnh & Hfree & _)]]];
    unfold housed; simpl; rewrite ?Hsnake.
  - done.
  - split_and!; [|by apply Forall_removelast|done].
    intros _. apply Forall_cons_2; [done|]. by apply Forall_removelast.
  - split_and!; [|done|by apply Hgrow].
    intros _. by apply Forall_cons_2.
  - split_and!; [done|done|by apply Hgrow].
Qed.

Lemma reachable_housed st : reachable W H st → housed W H st.
Proof.
  induction 1 as [t st t' Hreset|st k t st' t' Hreach IH Hstep].
  - by eapply reset_housed.
  - eapply step_housed; [| |done..].
    + by apply reachable_invariant.
    + by apply (reachable_shape W H).
Qed.

End HousingInvariant.

(** X6: on a grid at least four cells wide, the body of a reachable
    running state lies on the grid, and after game over every segment
    but perhaps the head does: only the head ever leaves the grid. *)
Theorem body_on_grid (W H : Z) st :
  4 ≤ W → reachable W H st →
  (game_over st = false → Forall (in_grid W H) (snake st))
  ∧ Forall (in_grid W H) (tail (snake st)).
Proof.
  intros Hwide Hreach.
  destruct (reachable_housed W H Hwide st Hreach) as (? & ? & _). done.
Qed.

Lemma body_on_grid_witness :
  (game_over coiled = false → Forall (in_grid GRID_W GRID_H) (snake coiled))
  ∧ Forall (in_grid GRID_W GRID_H) (tail (snake coiled)).
Proof.
  apply (body_on_grid GRID_W GRID_H coiled).
  - unfold GRID_W. lia.
  - exact coiled_reachable.
Defined.

(** X7: the body that [reset_game] returns lies on the grid exactly when
    the grid is at least four cells wide; on a narrower grid its last
    segment is left of column 0. *)
Theorem reset_body_on_grid (W H : Z) t st t' :
  reset_game W H t = Ok (st, t') →
  (Forall (in_grid W H) (snake st) ↔ 4 ≤ W)
  ∧ (W < 4 → ∃ p, last (snake st) = Some p ∧ vx p < 0).
Proof.
  intros Hreset.
  assert (W < 4 → ∃ p, last (snake st) = Some p ∧ vx p < 0) as Hlast.
  { intros Hnarrow. apply reset_game_Ok in Hreset as (f & -> & _).
    eexists. split; [done|]. unfold vadd, DIR_LEFT; simpl.
    assert (W `div` 2 < 2) by (apply Z.div_lt_upper_bound; lia). lia. }
  split; [|done]. split.
  - intros Hall. destruct (decide (4 ≤ W)) as [|Hnarrow]; [done|].
    destruct Hlast as (p & Hp & Hneg); [lia|].
    assert (p ∈ snake st) as Hin.
    { destruct (snake st) as [|a l] using rev_ind; [done|].
      rewrite last_snoc in Hp. injection Hp as ->.
      apply elem_of_app. right. by apply list_elem_of_singleton. }
    rewrite Forall_forall in Hall. destruct (Hall p Hin) as [??]. lia.
  - intros Hwide.
    destruct (reset_housed W H Hwide t st t' Hreset) as (Hall & _).
    apply Hall. by apply reset_game_Ok in Hreset as (f & -> & _).
Qed.

Lemma reset_body_on_grid_witness :
  Forall (in_grid GRID_W GRID_H) (snake fresh) ↔ 4 ≤ GRID_W.
Proof.
  refine (proj1 (reset_body_on_grid GRID_W GRID_H [17; 12] fresh [] _)).
  vm_compute. reflexivity.
Defined.

(** X8: on a grid at least four cells wide the score of a reachable state
    is at most [W * H - 3], the number of cells the initial body leaves
    free; on the program's grid that is 765, the score of [filled]. *)
Theorem score_bound (W H : Z) st :
  4 ≤ W → reachable W H st → score st ≤ W * H - 3.
Proof.
  intros Hwide Hreach.
  destruct (reachable_housed W H Hwide st Hreach) as (_ & _ & ?). lia.
Qed.

Lemma score_bound_witness : score filled ≤ GRID_W * GRID_H - 3.
Proof.
  apply (score_bound GRID_W GRID_H filled).
  - unfold GRID_W. lia.
  - exact filled_reachable.
Defined.

(** ** Rejection sampling *)


(** X9: with room left, [random_free_cell] throws away every drawn cell
    that is occupied and returns the first drawn cell that is free; the
    numbers after it stay on the tape. *)
Theorem rejection_sampling (W H : Z) occupied rejected p t :
  Z.of_nat (size occupied) < W * H →
  Forall (λ q, in_grid W H q ∧ q ∈ occupied) rejected →
  in_grid W H p → p ∉ occupied →
  random_free_cell W H occupied (draws rejected ++ draws [p] ++ t) = Ok (p, t).
Proof.
  intros Hroom Hrej Hp Hfree. unfold random_free_cell.
  rewrite decide_False by lia.
  apply sample_loop_rejects; [|done..].
  rewrite length_app, draws_length. lia.
Qed.

Lemma rejection_sampling_witness :
  random_free_cell GRID_W GRID_H (list_to_set (snake fresh))
    (draws [mkVec 15 12; mkVec 16 12] ++ draws [mkVec 3 4] ++ [7; 7])
  = Ok (mkVec 3 4, [7; 7]).
Proof.
  apply (rejection_sampling GRID_W GRID_H (list_to_set (snake fresh))
           [mkVec 15 12; mkVec 16 12] (mkVec 3 4) [7; 7]).
  - vm_compute. reflexivity.
  - apply (bool_decide_unpack _). vm_compute. exact I.
  - apply (bool_decide_unpack _). vm_compute. exact I.
  - apply (bool_decide_unpack _). vm_compute. exact I.
Defined.

(** ** Ticks that do not eat *)

(** X10: a tick that is not a food-eating one (the game is over, or the
    new head is not the food cell) draws no random number and leaves the
    food and the score as they are. *)
Theorem quiet_tick (W H : Z) st intent t st' t' :
  eats st intent = false →
  step W H st intent t = Ok (st', t') →
  t' = t ∧ food st' = food st ∧ score st' = score st.
Proof.
  intros Heats Hstep.
  destruct (game_over st) eqn:Hover.
  { rewrite step_game_over in Hstep by done. by injection Hstep as <- <-. }
  destruct (snake st) as [|h body] eqn:Hsnake.
  { unfold step, update in Hstep. by rewrite Hover, Hsnake in Hstep. }
  rewrite (eats_running st intent h body Hover Hsnake) in Heats.
  apply bool_decide_eq_false in Heats.
  apply (step_Ok_inv W H st intent t st' t' h body Hover Hsnake) in Hstep.
  cbv zeta in Hstep.
  destruct Hstep as [(-> & -> & _)|[(-> & -> & _)
    |[(f & -> & _ & _ & Heat & _)|(-> & _ & _ & _ & Heat & _)]]]; done.
Qed.

Lemma quiet_tick_witness :
  [5; 7] = [5; 7]
  ∧ food (moved fed DIR_RIGHT (mkVec 18 12)) = food fed
  ∧ score (moved fed DIR_RIGHT (mkVec 18 12)) = score fed.
Proof.
  apply (quiet_tick GRID_W GRID_H fed None [5; 7]
           (moved fed DIR_RIGHT (mkVec 18 12)) [5; 7]).
  - vm_compute. reflexivity.
  - vm_compute. reflexivity.
Defined.

(** ** Opposite directions *)

(** X11: [is_opposite] is symmetric and holds exactly when the two
    vectors add up to zero; the zero vector is the only vector opposite
    to itself, so no direction of the key table is. *)
Theorem is_opposite_sum :
  (∀ a b, is_opposite a b = is_opposite b a)
  ∧ (∀ a b, is_opposite a b = true ↔ a +v b = mkVec 0 0)
  ∧ (∀ a, is_opposite a a = true ↔ a = mkVec 0 0)
  ∧ (∀ k, is_opposite (key_to_dir k) (key_to_dir k) = false).
Proof.
  split_and!.
  - intros [ax ay] [bx by']. unfold is_opposite; simpl. lia.
  - intros [ax ay] [bx by']. rewrite is_opposite_spec. unfold vadd; simpl.
    split; [intros [-> ->]; f_equal; lia|intros [=]; lia].
  - intros [ax ay]. rewrite is_opposite_spec. simpl.
    split; [intros [??]; f_equal; lia|intros [= -> ->]; lia].
  - by intros [].
Qed.

(** ** The event loop *)

Lemma last_turn_not_opposite direction events pending k :
  (∀ k', pending = Some k' → is_opposite (key_to_dir k') direction = false) →
  last_turn direction events pending = Some k →
  is_opposite (key_to_dir k) direction = false.
Proof.
  revert pending. induction events as [|ev events IH]; intros pending Hpend.
  - simpl. apply Hpend.
  - destruct ev as [|[k'| | | |c]|]; simpl; try by apply IH.
    apply IH. intros k''.
    destruct (is_opposite (key_to_dir k') direction) eqn:Hopp;
      [apply Hpend|by intros [= <-]].
Qed.

Section DriverFacts.
Variables W H : Z.

Lemma update_pending st (k : Key) :
  game_over st = false →
  is_opposite (key_to_dir k) (direction st) = false →
  update W H st (Some (key_to_dir k)) = step W H st (Some (key_to_dir k)).
Proof.
  intros Hrun Hopp. unfold step, handle_key. by rewrite Hrun, Hopp.
Qed.

Lemma handle_event_Return l ev t code t' :
  handle_event W H l ev t = Ok (Return code, t') →
  is_quit ev = true ∧ code = 0.
Proof.
  destruct ev as [|[k| | | |c]|]; simpl; unfold ret, bind;
    try (by intros [= <- _]); try done.
  destruct (game_over (game l)); [|done].
  by destruct (reset_game W H t) as [[??]|?|].
Qed.

Lemma handle_event_Next l ev t l' t' :
  handle_event W H l ev t = Ok (Next l', t') → is_quit ev = false.
Proof. by destruct ev as [|[k| | | |c]|]. Qed.

(** A returning frame returned because of a quit event, with code 0. *)
Lemma poll_flow l events t r t' :
  poll W H l events t = Ok (r, t') →
  match r with
  | Return code => code = 0 ∧ existsb is_quit events = true
  | Next _ => existsb is_quit events = false
  end.
Proof.
  revert l t. induction events as [|ev events IH]; intros l t; simpl.
  - by intros [= <- _].
  - unfold bind.
    destruct (handle_event W H l ev t) as [[[code|l1] t1]|e|] eqn:Hev; [| |done..].
    + apply handle_event_Return in Hev as [-> ->].
      by intros [= <- _].
    + apply handle_event_Next in Hev as ->. apply IH.
Qed.

(** The events of a frame of a running game only choose the pending
    direction. *)
Lemma poll_running l events (pending : option Key) t :
  game_over (game l) = false →
  pending_dir l = key_to_dir <$> pending →
  existsb is_quit events = false →
  poll W H l events t =
    Ok (Next (mkLoop (game l)
                (key_to_dir <$> last_turn (direction (game l)) events pending)),
        t).
Proof.
  revert l pending. induction events as [|ev events IH];
    intros [st pd] pending Hrun Hpd Hquit; simpl in *.
  - by rewrite Hpd.
  - apply orb_false_iff in Hquit as [Hev Hquit]. unfold bind.
    destruct ev as [|[k| | | |c]|]; simpl in *; try done;
      unfold ret; rewrite ?Hrun; try by apply (IH (mkLoop st pd)).
    rewrite (IH (mkLoop st _)
               (if is_opposite (key_to_dir k) (direction st)
                then pending else Some k)); [done|done| |done].
    unfold handle_key. rewrite ?Hrun. simpl.
    by destruct (is_opposite (key_to_dir k) (direction st)).
Qed.

(** After game over, events other than quitting and [R] do nothing. *)
Lemma poll_idle l events t :
  game_over (game l) = true →
  existsb is_quit events = false → existsb is_restart events = false →
  poll W H l events t = Ok (Next l, t).
Proof.
  intros Hover. induction events as [|ev events IH]; simpl; [done|].
  intros [Hev Hquit]%orb_false_iff [Hr Hrestart]%orb_false_iff. unfold bind.
  destruct ev as [|[k| | | |c]|]; simpl in *; try done; unfold ret;
    try by apply IH.
  unfold handle_key. rewrite Hover. simpl. destruct l. by apply IH.
Qed.

Lemma poll_app l pre post t :
  poll W H l (pre ++ post) t =
    match poll W H l pre t with
    | Ok (Next l', t') => poll W H l' post t'
    | r => r
    end.
Proof.
  revert l t. induction pre as [|ev pre IH]; intros l t; simpl; [done|].
  unfold bind.
  by destruct (handle_event W H l ev t) as [[[code|l1] t1]|e|].
Qed.

End DriverFacts.

(** X12: a frame of a running game without a quit event is one tick whose
    key is the last direction key of the frame that does not reverse the
    current direction (none if there is no such key); other keys, [R]
    included, and other events are ignored, and [pending_dir] is used up. *)
Theorem frame_is_step (W H : Z) l events t :
  game_over (game l) = false → pending_dir l = None →
  existsb is_quit events = false →
  frame W H l events t =
    match step W H (game l)
            (key_to_dir <$> last_turn (direction (game l)) events None) t with
    | Ok (st', t') => Ok (Next (mkLoop st' None), t')
    | Raise e => Raise e
    | Starved => Starved
    end.
Proof.
  intros Hrun Hpd Hquit. unfold frame, bind.
  rewrite (poll_running W H l events None t Hrun Hpd Hquit). simpl.
  rewrite Hrun.
  destruct (last_turn (direction (game l)) events None) as [k|] eqn:Hturn; simpl.
  - rewrite update_pending; [done|done|].
    eapply last_turn_not_opposite; [|exact Hturn]. done.
  - done.
Qed.

(** Two keys in one frame: up is kept, left would reverse and is dropped. *)
Lemma frame_is_step_witness :
  frame GRID_W GRID_H (mkLoop started None)
        [KEYDOWN (Dir K_UP); KEYDOWN K_r; KEYDOWN (Dir K_LEFT)] []
  = Ok (Next (mkLoop (moved started DIR_UP (mkVec 16 11)) None), []).
Proof.
  rewrite (frame_is_step GRID_W GRID_H (mkLoop started None)
             [KEYDOWN (Dir K_UP); KEYDOWN K_r; KEYDOWN (Dir K_LEFT)] []
             eq_refl eq_refl eq_refl).
  vm_compute. reflexivity.
Defined.

(** X13: after game over, a frame without a quit event and without [R]
    changes nothing: the game variables and [pending_dir] stay as they
    are and no random number is drawn, whatever other keys are pressed. *)
Theorem idle_after_game_over (W H : Z) l events t :
  game_over (game l) = true →
  existsb is_quit events = false → existsb is_restart events = false →
  frame W H l events t = Ok (Next l, t).
Proof.
  intros Hover Hquit Hrestart. unfold frame, bind.
  rewrite (poll_idle W H l events t Hover Hquit Hrestart).
  unfold update. rewrite Hover. unfold ret. by destruct l.
Qed.

Lemma idle_after_game_over_witness :
  frame GRID_W GRID_H (mkLoop (crashed at_right_wall DIR_RIGHT (mkVec 32 12)) None)
        [KEYDOWN (Dir K_UP); OtherEvent; KEYDOWN (OtherKey 32)] [5; 7]
  = Ok (Next (mkLoop (crashed at_right_wall DIR_RIGHT (mkVec 32 12)) None), [5; 7]).
Proof.
  apply (idle_after_game_over GRID_W GRID_H
           (mkLoop (crashed at_right_wall DIR_RIGHT (mkVec 32 12)) None)
           [KEYDOWN (Dir K_UP); OtherEvent; KEYDOWN (OtherKey 32)] [5; 7]);
    reflexivity.
Defined.

(** X14: after game over, the first [R] of a frame (with no quit event
    before it) throws the old game and the keys pressed before it away:
    the frame goes on as a frame of the state [reset_game] returns, with
    the events that follow [R], so the new game is already one tick old
    when the frame ends. *)
Theorem restart_frame (W H : Z) l pre post t :
  game_over (game l) = true →
  existsb is_quit pre = false → existsb is_restart pre = false →
  frame W H l (pre ++ KEYDOWN K_r :: post) t =
    match reset_game W H t with
    | Ok (st, t') => frame W H (mkLoop st None) post t'
    | Raise e => Raise e
    | Starved => Starved
    end.
Proof.
  intros Hover Hquit Hrestart. unfold frame, bind.
  rewrite poll_app, (poll_idle W H l pre t Hover Hquit Hrestart).
  simpl. unfold bind. rewrite Hover.
  by destruct (reset_game W H t) as [[st t']|e|].
Qed.

Lemma restart_frame_witness :
  frame GRID_W GRID_H (mkLoop (crashed at_right_wall DIR_RIGHT (mkVec 32 12)) None)
        ([KEYDOWN (Dir K_UP)] ++ KEYDOWN K_r :: [KEYDOWN (Dir K_DOWN)]) [0; 0]
  = Ok (Next (mkLoop (moved started DIR_DOWN (mkVec 16 13)) None), []).
Proof.
  rewrite (restart_frame GRID_W GRID_H
             (mkLoop (crashed at_right_wall DIR_RIGHT (mkVec 32 12)) None)
             [KEYDOWN (Dir K_UP)] [KEYDOWN (Dir K_DOWN)] [0; 0]
             eq_refl eq_refl eq_refl).
  vm_compute. reflexivity.
Defined.

Section MainFacts.
Variables W H : Z.

(** What the event loop keeps: the game is a reachable state, and a
    pending direction is a key of a running game that does not reverse
    it. *)
Lemma poll_reachable l events t l' t' :
  reachable W H (game l) →
  (pending_dir l = None
   ∨ (game_over (game l) = false
      ∧ ∃ k, pending_dir l = Some (key_to_dir k)
             ∧ is_opposite (key_to_dir k) (direction (game l)) = false)) →
  poll W H l events t = Ok (Next l', t') →
  reachable W H (game l')
  ∧ (pending_dir l' = None
     ∨ (game_over (game l') = false
        ∧ ∃ k, pending_dir l' = Some (key_to_dir k)
               ∧ is_opposite (key_to_dir k) (direction (game l')) = false)).
Proof.
  revert l t. induction events as [|ev events IH]; intros l t Hreach Hpd; simpl.
  - by intros [= <- _].
  - unfold bind.
    destruct (handle_event W H l ev t) as [[[code|l1] t1]|e|] eqn:Hev; [done| |done..].
    apply IH.
    + destruct ev as [|[k| | | |c]|]; simpl in Hev; unfold ret, bind in Hev;
        try (by simplify_eq).
      destruct (game_over (game l)); [|by simplify_eq].
      destruct (reset_game W H t) as [[st t2]|?|] eqn:Hreset; [|done..].
      simplify_eq. simpl. by eapply reach_reset.
    + destruct ev as [|[k| | | |c]|]; simpl in Hev; unfold ret, bind in Hev;
        try (by simplify_eq).
      * simplify_eq. simpl. unfold handle_key.
        destruct (game_over (game l)) eqn:Hover; simpl.
        { exact Hpd. }
        destruct (is_opposite (key_to_dir k) (direction (game l))) eqn:Hopp;
          simpl; [exact Hpd|]. right. eauto.
      * destruct (game_over (game l)) eqn:Hover;
          [|simplify_eq; by rewrite Hover].
        destruct (reset_game W H t) as [[st t2]|?|]; [|done..].
        simplify_eq. by left.
Qed.

Lemma frame_reachable l events t l' t' :
  reachable W H (game l) → pending_dir l = None →
  frame W H l events t = Ok (Next l', t') →
  reachable W H (game l') ∧ pending_dir l' = None.
Proof.
  intros Hreach Hpd. unfold frame, bind.
  destruct (poll W H l events t) as [[[code|l1] t1]|e|] eqn:Hpoll; [done| |done..].
  apply poll_reachable in Hpoll as [Hreach1 Hpd1]; [|done|by left].
  destruct (update W H (game l1) (pending_dir l1) t1) as [[st' t2]|e|] eqn:Hup;
    [|done..].
  unfold ret. intros [= <- _]. simpl.
  destruct Hpd1 as [Hnone|(Hrun & k & Hsome & Hopp)].
  - rewrite Hnone in *. split; [|by destruct (game_over (game l1))].
    by eapply (reach_step W H (game l1) None).
  - rewrite Hsome, Hrun in *. split; [|done].
    rewrite update_pending in Hup by done.
    by eapply (reach_step W H (game l1) (Some k)).
Qed.

Lemma run_frames_reachable l frames t l' t' :
  reachable W H (game l) → pending_dir l = None →
  run_frames W H l frames t = Ok (Next l', t') →
  reachable W H (game l') ∧ pending_dir l' = None.
Proof.
  revert l t. induction frames as [|events frames IH]; intros l t Hreach Hpd;
    simpl.
  - by intros [= <- _].
  - unfold bind.
    destruct (frame W H l events t) as [[[code|l1] t1]|e|] eqn:Hframe;
      [done| |done..].
    apply frame_reachable in Hframe as [??]; [|done..]. by apply IH.
Qed.

End MainFacts.

(** X15: whatever events arrive, as long as [main] is looping its five
    game variables form a state reachable from [reset_game] by ticks of
    the game update, one key or none each, and [pending_dir] is [None]
    at the end of every frame. What holds of every reachable state holds
    of every state [main] draws. *)
Theorem main_states_reachable (W H : Z) frames t l t' :
  main W H frames t = Ok (Next l, t') →
  reachable W H (game l) ∧ pending_dir l = None.
Proof.
  unfold main, bind.
  destruct (reset_game W H t) as [[st t1]|e|] eqn:Hreset; [|done..].
  apply run_frames_reachable; [|done]. by eapply reach_reset.
Qed.

Lemma main_states_reachable_witness :
  reachable GRID_W GRID_H (game (mkLoop coiled None))
  ∧ pending_dir (mkLoop coiled None) = None.
Proof.
  apply (main_states_reachable GRID_W GRID_H
           [[]; [KEYDOWN (Dir K_DOWN); KEYDOWN (Dir K_w)];
            [KEYDOWN (Dir K_a); KEYDOWN K_r]]
           [17; 12; 0; 0] (mkLoop coiled None) []).
  vm_compute. reflexivity.
Defined.

Section ExitFacts.
Variables W H : Z.

Lemma frame_flow l events t r t' :
  frame W H l events t = Ok (r, t') →
  match r with
  | Return code => code = 0 ∧ existsb is_quit events = true
  | Next _ => existsb is_quit events = false
  end.
Proof.
  unfold frame, bind.
  destruct (poll W H l events t) as [[[code|l1] t1]|e|] eqn:Hpoll; [| |done..].
  - apply poll_flow in Hpoll. by intros [= <- _].
  - apply poll_flow in Hpoll.
    destruct (update W H _ _ t1) as [[st' t2]|?|]; [|done..].
    by intros [= <- _].
Qed.

Lemma run_frames_flow l frames t r t' :
  run_frames W H l frames t = Ok (r, t') →
  match r with
  | Return code => code = 0 ∧ existsb (existsb is_quit) frames = true
  | Next _ => existsb (existsb is_quit) frames = false
  end.
Proof.
  revert l t. induction frames as [|events frames IH]; intros l t; simpl.
  - by intros [= <- _].
  - unfold bind.
    destruct (frame W H l events t) as [[[code|l1] t1]|e|] eqn:Hframe;
      [| |done..].
    + apply frame_flow in Hframe as [-> ->]. by intros [= <- _].
    + apply frame_flow in Hframe as ->. apply IH.
Qed.

(** A frame with a quit event ends [main] at that event: what follows it
    in the frame is not handled and the game is not updated. *)
Lemma poll_quit l pre q post t :
  is_quit q = true →
  poll W H l (pre ++ q :: post) t = poll W H l (pre ++ [q]) t.
Proof.
  intros Hq. rewrite !poll_app.
  destruct (poll W H l pre t) as [[[code|l1] t1]|e|]; try done.
  by destruct q as [|[k| | | |c]|].
Qed.

Lemma reset_no_Raise t e :
  3 < W * H → 0 < W → reset_game W H t ≠ Raise e.
Proof.
  intros Hroom HW. unfold reset_game, bind.
  destruct (random_free_cell W H _ t) as [[f t']|e'|] eqn:Hfood; [done| |done].
  unfold random_free_cell in Hfood. rewrite initial_snake_size in Hfood.
  rewrite decide_False in Hfood by lia.
  apply sample_loop_Raise in Hfood. nia.
Qed.

Lemma poll_no_Raise l events t e :
  3 < W * H → 0 < W → poll W H l events t ≠ Raise e.
Proof.
  intros Hroom HW. revert l t.
  induction events as [|ev events IH]; intros l t; simpl; [done|].
  unfold bind.
  destruct (handle_event W H l ev t) as [[[code|l1] t1]|e'|] eqn:Hev;
    [done|apply IH| |done].
  destruct ev as [|[k| | | |c]|]; simpl in Hev; unfold ret, bind in Hev;
    try done.
  destruct (game_over (game l)); [|done].
  destruct (reset_game W H t) as [[st t2]|?|] eqn:Hreset; [done| |done].
  by apply reset_no_Raise in Hreset.
Qed.

Lemma frame_no_Raise l events t e :
  3 < W * H → 0 < W →
  reachable W H (game l) → pending_dir l = None →
  frame W H l events t ≠ Raise e.
Proof.
  intros Hroom HW Hreach Hpd. unfold frame, bind.
  destruct (poll W H l events t) as [[[code|l1] t1]|e'|] eqn:Hpoll;
    [done| |by apply poll_no_Raise in Hpoll|done].
  apply poll_reachable in Hpoll as [Hreach1 Hpd1]; [|done|by left].
  pose proof (reachable_invariant W H _ Hreach1) as [Hne _ _ _].
  destruct (snake (game l1)) as [|h body] eqn:Hsnake; [done|].
  destruct (update W H (game l1) (pending_dir l1) t1) as [[st' t2]|e'|] eqn:Hup;
    [done| |done].
  destruct (game_over (game l1)) eqn:Hover.
  { unfold update in Hup. by rewrite Hover in Hup. }
  destruct Hpd1 as [Hnone|(_ & k & Hsome & Hopp)].
  - rewrite Hnone in Hup.
    by apply (step_no_Raise W H (game l1) None t1 e' h body) in Hup.
  - rewrite Hsome, update_pending in Hup by done.
    by apply (step_no_Raise W H (game l1) _ t1 e' h body) in Hup.
Qed.

Lemma run_frames_no_Raise l frames t e :
  3 < W * H → 0 < W →
  reachable W H (game l) → pending_dir l = None →
  run_frames W H l frames t ≠ Raise e.
Proof.
  intros Hroom HW. revert l t.
  induction frames as [|events frames IH]; intros l t Hreach Hpd; simpl;
    [done|].
  unfold bind.
  destruct (frame W H l events t) as [[[code|l1] t1]|e'|] eqn:Hframe;
    [done| |by apply frame_no_Raise in Hframe|done].
  apply frame_reachable in Hframe as [??]; [|done..]. by apply IH.
Qed.

End ExitFacts.

(** X16: [main] returns only through a quit event ([QUIT], Escape or Q),
    and then with exit code 0: over the frames given it has returned
    exactly when one of them holds a quit event. *)
Theorem main_exit (W H : Z) frames t r t' :
  main W H frames t = Ok (r, t') →
  match r with
  | Return code => code = 0 ∧ existsb (existsb is_quit) frames = true
  | Next _ => existsb (existsb is_quit) frames = false
  end.
Proof.
  unfold main, bind.
  destruct (reset_game W H t) as [[st t1]|e|]; [|done..].
  apply run_frames_flow.
Qed.

Lemma main_exit_witness :
  (0 = 0 ∧ existsb (existsb is_quit)
             [[KEYDOWN (Dir K_UP)]; [OtherEvent; KEYDOWN K_q; KEYDOWN K_r]; []]
           = true).
Proof.
  apply (main_exit GRID_W GRID_H
           [[KEYDOWN (Dir K_UP)]; [OtherEvent; KEYDOWN K_q; KEYDOWN K_r]; []]
           [0; 0] (Return 0) []).
  vm_compute. reflexivity.
Defined.

(** X17: on a grid with more than three cells and positive sides, the
    program's 32 x 24 among them, [main] raises no exception, whatever
    events arrive: not the no-free-cell error, not an index error on the
    body, not the error of [randrange]. *)
Theorem main_no_exception (W H : Z) frames t e :
  3 < W * H → 0 < W → main W H frames t ≠ Raise e.
Proof.
  intros Hroom HW. unfold main, bind.
  destruct (reset_game W H t) as [[st t1]|e'|] eqn:Hreset;
    [|by apply reset_no_Raise in Hreset|done].
  apply run_frames_no_Raise; [done..| |done]. by eapply reach_reset.
Qed.

Lemma main_no_exception_witness :
  main GRID_W GRID_H [[KEYDOWN (Dir K_UP)]; [KEYDOWN K_r]] [0; 0]
  ≠ Raise RuntimeError.
Proof.
  apply (main_no_exception GRID_W GRID_H [[KEYDOWN (Dir K_UP)]; [KEYDOWN K_r]]
           [0; 0] RuntimeError); unfold GRID_W, GRID_H; lia.
Defined.

(** ** Drawing *)

(** X18: the rectangle [draw_cell] fills lies within the window exactly
    when the position is a cell of the grid; for a position off the grid,
    such as the head after a wall collision, no pixel of it is in the
    window. *)
Theorem cell_rect_on_screen (W H : Z) (p : Vec) :
  (in_grid W H p ↔ ∀ px py, covers (cell_rect p) px py → on_screen W H px py)
  ∧ ((¬ in_grid W H p) →
       ∀ px py, covers (cell_rect p) px py → ¬ on_screen W H px py).
Proof.
  destruct p as [x y].
  unfold in_grid, covers, on_screen, cell_rect, WIDTH, HEIGHT, CELL_SIZE; simpl.
  split; [split|].
  - intros Hin px py Hcov. lia.
  - intros Hall. specialize (Hall (x * 20) (y * 20)). lia.
  - intros Hout px py Hcov. lia.
Qed.

(** X19: a pixel belongs to the rectangle of exactly one grid position,
    the one whose coordinates are the pixel's divided by the cell size;
    so the rectangles of two different positions share no pixel. *)
Theorem cell_rect_pixel (p : Vec) (px py : Z) :
  (covers (cell_rect p) px py
     ↔ p = mkVec (px `div` CELL_SIZE) (py `div` CELL_SIZE))
  ∧ (∀ q, covers (cell_rect p) px py → covers (cell_rect q) px py → p = q).
Proof.
  assert (∀ r, covers (cell_rect r) px py
               ↔ r = mkVec (px `div` CELL_SIZE) (py `div` CELL_SIZE)) as Hiff.
  { intros [x y]. unfold covers, cell_rect, CELL_SIZE; simpl.
    pose proof (Z.div_mod px 20 ltac:(lia)).
    pose proof (Z.mod_pos_bound px 20 ltac:(lia)).
    pose proof (Z.div_mod py 20 ltac:(lia)).
    pose proof (Z.mod_pos_bound py 20 ltac:(lia)).
    split.
    - intros [??]. f_equal; lia.
    - intros [= -> ->]. lia. }
  split; [apply Hiff|].
  intros q Hp%Hiff Hq%Hiff. congruence.
Qed.

Lemma range0_cells (n : Z) :
  range0 (n * CELL_SIZE) CELL_SIZE = (λ i, i * CELL_SIZE) <$> seqZ 0 n.
Proof.
  unfold range0, CELL_SIZE. do 2 f_equal.
  replace (n * 20 + 20 - 1) with (19 + n * 20) by lia.
  rewrite Z.div_add by lia. done.
Qed.

(** X20: [draw_grid] draws one vertical line per column of the grid,
    along the left edge of its cells, and one horizontal line per row,
    along the top edge: [W + H] lines, and none on the right or bottom
    border of the window. *)
Theorem draw_grid_lines (W H : Z) :
  draw_grid W H =
    ((λ i, ((rleft (cell_rect (mkVec i 0)), 0),
            (rleft (cell_rect (mkVec i 0)), HEIGHT H))) <$> seqZ 0 W)
    ++ ((λ j, ((0, rtop (cell_rect (mkVec 0 j))),
               (WIDTH W, rtop (cell_rect (mkVec 0 j))))) <$> seqZ 0 H)
  ∧ length (draw_grid W H) = (Z.to_nat W + Z.to_nat H)%nat
  ∧ (((WIDTH W, 0), (WIDTH W, HEIGHT H)) ∉ draw_grid W H)
  ∧ ((0, HEIGHT H), (WIDTH W, HEIGHT H)) ∉ draw_grid W H.
Proof.
  assert (draw_grid W H =
    ((λ i, ((rleft (cell_rect (mkVec i 0)), 0),
            (rleft (cell_rect (mkVec i 0)), HEIGHT H))) <$> seqZ 0 W)
    ++ ((λ j, ((0, rtop (cell_rect (mkVec 0 j))),
               (WIDTH W, rtop (cell_rect (mkVec 0 j))))) <$> seqZ 0 H)) as Heq.
  { unfold draw_grid, WIDTH, HEIGHT.
    rewrite !range0_cells, <- !list_fmap_compose. done. }
  split; [done|]. rewrite Heq. split_and!.
  - rewrite length_app, !length_fmap, !length_seqZ. done.
  - rewrite elem_of_app, !list_elem_of_fmap. simpl.
    unfold WIDTH, HEIGHT, CELL_SIZE.
    intros [(i & Hline & Hin)|(j & Hline & Hin)];
      apply elem_of_seqZ in Hin; injection Hline; intros; lia.
  - rewrite elem_of_app, !list_elem_of_fmap. simpl.
    unfold WIDTH, HEIGHT, CELL_SIZE.
    intros [(i & Hline & Hin)|(j & Hline & Hin)];
      apply elem_of_seqZ in Hin; injection Hline; intros; lia.
Qed.

Lemma draw_cells_positions st : (draw_cells st).*1 = food st :: snake st.
Proof.
  unfold draw_cells. rewrite fmap_cons, fmap_imap. simpl. f_equal.
  rewrite <- (list_fmap_id (snake st)) at 2.
  rewrite <- imap_const. by apply imap_ext.
Qed.

(** X21: in a reachable running state no grid position is drawn twice in
    a frame: the [draw_cell] calls are one for the food and one for each
    segment, on pairwise different positions; the food is the only
    position drawn in the food colour and the head the only one drawn in
    the head colour. *)
Theorem draw_cells_distinct (W H : Z) st :
  reachable W H st → game_over st = false →
  NoDup ((draw_cells st).*1)
  ∧ length (draw_cells st) = S (length (snake st))
  ∧ ∀ p c, (p, c) ∈ draw_cells st →
      (c = COLOR_FOOD ↔ p = food st)
      ∧ (c = COLOR_HEAD ↔ head (snake st) = Some p).
Proof.
  intros Hreach Hrun.
  apply reachable_invariant in Hreach as [_ _ Hnodup Hfree].
  specialize (Hnodup Hrun).
  destruct Hfree as [Hfree|[? _]]; [|congruence].
  split_and!.
  - rewrite draw_cells_positions. by apply NoDup_cons.
  - unfold draw_cells. simpl. by rewrite length_imap.
  - intros p c Hin. unfold draw_cells in Hin.
    apply elem_of_cons in Hin as [[= -> ->]|Hin].
    + split; [done|]. split; [done|].
      intros Hhead. destruct Hfree.
      destruct (snake st) as [|h body]; [done|].
      injection Hhead as ->. left.
    + apply list_elem_of_lookup in Hin as [i Hi].
      rewrite list_lookup_imap in Hi.
      destruct (snake st !! i) as [seg|] eqn:Hseg; [|done].
      injection Hi as <- <-.
      assert (seg ∈ snake st) as Hmem by by eapply list_elem_of_lookup_2.
      split.
      * split; [by case_decide|]. intros ->. done.
      * case_decide as Hi0.
        -- subst i. split; [intros _|done].
           by destruct (snake st) as [|h body]; simplify_eq.
        -- split; [done|]. intros Hhead. destruct Hi0.
           eapply NoDup_lookup; [done|done|].
           by destruct (snake st) as [|h body]; simplify_eq.
Qed.

Lemma draw_cells_distinct_witness :
  NoDup ((draw_cells coiled).*1)
  ∧ length (draw_cells coiled) = S (length (snake coiled))
  ∧ ∀ p c, (p, c) ∈ draw_cells coiled →
      (c = COLOR_FOOD ↔ p = food coiled)
      ∧ (c = COLOR_HEAD ↔ head (snake coiled) = Some p).
Proof.
  apply (draw_cells_distinct GRID_W GRID_H coiled coiled_reachable).
  reflexivity.
Defined.

(** ** Why a game is over *)

Section GameOver.
Variables W H : Z.

Lemma running_head_in_grid st :
  reachable W H st → game_over st = false →
  ∃ h body, snake st = h :: body ∧ in_grid W H h.
Proof.
  induction 1 as [t st t' Hreset|st k t st' t' Hreach IH Hstep]; intros Hrun.
  - apply reset_game_Ok in Hreset as (f & -> & [Hfx Hfy] & _).
    eexists _, _. split; [done|]. unfold in_grid; simpl.
    assert (0 ≤ W `div` 2) by (apply Z.div_pos; lia).
    assert (W `div` 2 < W) by (apply Z.div_lt_upper_bound; lia).
    assert (0 ≤ H `div` 2) by (apply Z.div_pos; lia).
    assert (H `div` 2 < H) by (apply Z.div_lt_upper_bound; lia). lia.
  - destruct (game_over st) eqn:Hover.
    { rewrite step_game_over in Hstep by done. injection Hstep as <- _.
      congruence. }
    destruct (IH eq_refl) as (h & body & Hsnake & _).
    apply (step_Ok_inv W H st _ t st' t' h body Hover Hsnake) in Hstep.
    cbv zeta in Hstep.
    destruct Hstep as [(-> & _)|[(-> & _ & Hnh & _)
      |[(f & -> & Hnh & _)|(-> & _)]]]; try done; simpl; eauto.
Qed.

Lemma game_over_cause st :
  reachable W H st → game_over st = true →
  ∃ h body, snake st = h :: body
    ∧ (out_of_bounds W H h = true ∨ h ∈ body
       ∨ (h = food st ∧ grid_full W H st)).
Proof.
  induction 1 as [t st t' Hreset|st k t st' t' Hreach IH Hstep]; intros Hover'.
  - by apply reset_game_Ok in Hreset as (f & -> & _).
  - destruct (game_over st) eqn:Hover.
    { rewrite step_game_over in Hstep by done. injection Hstep as <- _.
      by apply IH. }
    pose proof (reachable_invariant W H st Hreach) as [Hne _ _ _].
    destruct (snake st) as [|h body] eqn:Hsnake; [done|].
    apply (step_Ok_inv W H st _ t st' t' h body Hover Hsnake) in Hstep.
    cbv zeta in Hstep. rewrite Hsnake in Hstep.
    destruct Hstep as [(-> & _ & Hcoll)|[(-> & _)
      |[(f & -> & _)|(-> & _ & _ & _ & Heat & Hfull)]]]; try done;
      simpl; rewrite Hsnake; eexists _, _; (split; [done|]).
    + destruct Hcoll as [Hout|Hin]; [left|by right; left].
      by apply out_of_bounds_true.
    + right; right. split; [done|]. unfold grid_full. simpl.
      by rewrite Hsnake.
Qed.

End GameOver.

(** X1: in a reachable state [game_over] is set exactly when the head
    is off the grid, or on another segment of the body, or on the food
    cell with the grid full; while the game runs the head is on the grid. *)
Theorem game_over_iff (W H : Z) st :
  reachable W H st →
  ∃ h body, snake st = h :: body
    ∧ (game_over st = true
       ↔ out_of_bounds W H h = true ∨ h ∈ body
         ∨ (h = food st ∧ grid_full W H st)).
Proof.
  intros Hreach.
  destruct (game_over st) eqn:Hover.
  - destruct (game_over_cause W H st Hreach Hover) as (h & body & Hsnake & Hwhy).
    exists h, body. done.
  - destruct (running_head_in_grid W H st Hreach Hover)
      as (h & body & Hsnake & Hin).
    exists h, body. split; [done|]. split; [done|].
    apply reachable_invariant in Hreach as [_ _ Hnodup Hfree].
    specialize (Hnodup Hover). rewrite Hsnake in Hnodup, Hfree.
    apply NoDup_cons in Hnodup as [Hnotin _].
    apply out_of_bounds_false in Hin.
    intros [Hout|[Hself|[Heat _]]]; [congruence|done|].
    destruct Hfree as [Hfree|[? _]]; [|congruence].
    destruct Hfree. rewrite Heat. left.
Qed.

Lemma game_over_iff_witness :
  ∃ h body, snake filled_4x1 = h :: body
    ∧ (game_over filled_4x1 = true
       ↔ out_of_bounds 4 1 h = true ∨ h ∈ body
         ∨ (h = food filled_4x1 ∧ grid_full 4 1 filled_4x1)).
Proof.
  apply (game_over_iff 4 1 filled_4x1 filled_4x1_reachable).
Defined.
